(** * go-shadowsocks2, http.go: the local HTTP proxy front-end

    A shallow embedding of [src/http.go] and the properties its design
    document states about it.  Go strings are byte strings and are modelled
    as [string] (a list of 8-bit [ascii]); [http.Header], a
    [map[string][]string], is a [gmap string (list string)]; the drop sets,
    of type [map[string]struct{}], are [gset string].  The handlers talk to
    sockets and to the net/http machinery: their model threads an explicit
    log of the calls they make and reads the outcome of every fallible call
    from an environment record. *)

From Stdlib Require Import ZArith NArith Ascii String List Bool Lia.
From stdpp Require Import gmap strings list fin_maps.
Import ListNotations.
Local Open Scope string_scope.

(** ** The Go library functions the file calls *)

Definition code (c : ascii) : N := N_of_ascii c.

Definition between (lo hi : N) (c : ascii) : bool :=
  (lo <=? code c)%N && (code c <=? hi)%N.

Definition oneOf (cs : string) (c : ascii) : bool :=
  existsb (Ascii.eqb c) (list_ascii_of_string cs).

Module strings.

(** [strings.Contains(s, substr)]. *)
Fixpoint HasPrefix (s prefix : string) {struct prefix} : bool :=
  match prefix, s with
  | EmptyString, _ => true
  | String p prefix', String c s' => Ascii.eqb c p && HasPrefix s' prefix'
  | String _ _, EmptyString => false
  end.

Fixpoint Contains (s substr : string) : bool :=
  HasPrefix s substr ||
  match s with
  | EmptyString => false
  | String _ s' => Contains s' substr
  end.

(** [strings.Split(s, sep)] for a separator of one byte, the only way the
    file calls it: the pieces between the separators, in order; there is
    always at least one piece. *)
Fixpoint Split (s : string) (sep : ascii) : list string :=
  match s with
  | EmptyString => [EmptyString]
  | String c s' =>
      if Ascii.eqb c sep then EmptyString :: Split s' sep
      else match Split s' sep with
           | p :: ps => String c p :: ps
           | [] => [String c EmptyString]
           end
  end.

(** [strings.TrimSpace(s)] removes the leading and the trailing white
    space, as [unicode.IsSpace] defines it, rune by rune.  On the bytes of
    a string those runes are the six of ASCII (tab, line feed, vertical
    tab, form feed, carriage return, space) and the UTF-8 encodings of
    U+0085, U+00A0 (two bytes) and of U+1680, U+2000..U+200A, U+2028,
    U+2029, U+202F, U+205F, U+3000 (three bytes).  A byte sequence that is
    not valid UTF-8 decodes to U+FFFD, which is not white space. *)
Definition asciiSpace (c : ascii) : bool :=
  between 9 13 c || (code c =? 32)%N.

Definition space2 (b1 b2 : ascii) : bool :=
  (code b1 =? 194)%N && ((code b2 =? 133)%N || (code b2 =? 160)%N).

Definition space3 (b1 b2 b3 : ascii) : bool :=
  ((code b1 =? 225)%N && (code b2 =? 154)%N && (code b3 =? 128)%N)
  || ((code b1 =? 226)%N && (code b2 =? 128)%N
      && (between 128 138 b3 || between 168 169 b3 || (code b3 =? 175)%N))
  || ((code b1 =? 226)%N && (code b2 =? 129)%N && (code b3 =? 159)%N)
  || ((code b1 =? 227)%N && (code b2 =? 128)%N && (code b3 =? 128)%N).

(** [backwards] reads the string from its end: the bytes of a rune then
    come last byte first. *)
Fixpoint trimFront (backwards : bool) (s : string) : string :=
  match s with
  | EmptyString => s
  | String c1 r1 =>
      if asciiSpace c1 then trimFront backwards r1
      else match r1 with
           | EmptyString => s
           | String c2 r2 =>
               if (if backwards then space2 c2 c1 else space2 c1 c2)
               then trimFront backwards r2
               else match r2 with
                    | EmptyString => s
                    | String c3 r3 =>
                        if (if backwards then space3 c3 c2 c1
                            else space3 c1 c2 c3)
                        then trimFront backwards r3
                        else s
                    end
           end
  end.

Definition TrimSpace (s : string) : string :=
  String.rev (trimFront true (String.rev (trimFront false s))).

End strings.

Module textproto.

(** [validHeaderFieldByte]: the bytes of an HTTP token. *)
Definition validHeaderFieldByte (c : ascii) : bool :=
  between 48 57 c || between 65 90 c || between 97 122 c
  || oneOf "!#$%&'*+-.^_`|~" c.

Definition upperByte (c : ascii) : ascii :=
  if between 97 122 c then ascii_of_N (code c - 32) else c.

Definition lowerByte (c : ascii) : ascii :=
  if between 65 90 c then ascii_of_N (code c + 32) else c.

Fixpoint canonicalCase (upper : bool) (s : string) : string :=
  match s with
  | EmptyString => EmptyString
  | String c s' =>
      let c' := if upper then upperByte c else lowerByte c in
      String c' (canonicalCase (Ascii.eqb c' "-") s')
  end.

(** [textproto.CanonicalMIMEHeaderKey]: the first letter and every letter
    after a hyphen in upper case, the others in lower case; a key with a
    byte that is not a token byte is returned as it is. *)
Definition CanonicalMIMEHeaderKey (s : string) : string :=
  if forallb validHeaderFieldByte (list_ascii_of_string s)
  then canonicalCase true s else s.

End textproto.

(** ** [http.Header] *)

Module Header.

Definition values (h : gmap string (list string)) (key : string)
  : list string :=
  default [] (h !! key).

(** [h.Add(key, value)]: the key is canonicalised and the value appended
    to the values the key already has. *)
Definition Add (h : gmap string (list string)) (key value : string)
  : gmap string (list string) :=
  let k := textproto.CanonicalMIMEHeaderKey key in
  <[k := (values h k ++ [value])%list]> h.

(** [h.Get(key)]: the first value of the canonicalised key, or the empty
    string. *)
Definition Get (h : gmap string (list string)) (key : string) : string :=
  match values h (textproto.CanonicalMIMEHeaderKey key) with
  | v :: _ => v
  | [] => EmptyString
  end.

End Header.

(** ** The header sanitizer *)

Definition connectionHeader : string := "Connection".

Definition hopByHopHeaders : gset string :=
  {[ connectionHeader; "Keep-Alive"; "Proxy-Authorization";
     "Proxy-Authentication"; "TE"; "Trailer"; "Transfer-Encoding";
     "Upgrade" ]}.

(** [tokenPatternRegex] is [^[\d\w\!#\$%&'\*\+\-\.\^_\|~`]+$]: one
    character class repeated once or more between the two ends of the text.
    In Go's syntax [\d] is [0-9] and [\w] is [0-9A-Za-z_]; every other member
    of the class is a literal, escaped or not; a byte above 127 starts a rune
    outside ASCII, which the class does not hold. *)
Definition perlDigit (c : ascii) : bool := between 48 57 c.

Definition perlWord (c : ascii) : bool :=
  between 48 57 c || between 65 90 c || between 97 122 c
  || (code c =? 95)%N.

Definition tokenPatternClass (c : ascii) : bool :=
  perlDigit c || perlWord c || oneOf "!#$%&'*+-.^_|~`" c.

Module tokenPattern.

Definition MatchString (s : string) : bool :=
  match s with
  | EmptyString => false
  | String _ _ => forallb tokenPatternClass (list_ascii_of_string s)
  end.

End tokenPattern.

(** The loop body of [processConnectionHdr]: [dropHdrs] is updated in place,
    [bad] collects the rejected tokens. *)
Definition processPart (st : gset string * list string) (part : string)
  : gset string * list string :=
  let header := strings.TrimSpace part in
  if tokenPattern.MatchString header
  then ({[ header ]} ∪ st.1, st.2)
  else (st.1, (st.2 ++ [header])%list).

Definition processConnectionHdr (dropHdrs : gset string) (value : string)
  : gset string * list string :=
  foldl processPart (dropHdrs, []) (strings.Split value ",").

(** The first loop of [copyHeaders]: the result of [processConnectionHdr],
    the list of bad tokens, is dropped. *)
Definition dynDropHdrs (src : gmap string (list string)) : gset string :=
  match src !! connectionHeader with
  | Some vals => foldl (fun d v => (processConnectionHdr d v).1) ∅ vals
  | None => ∅
  end.

Definition dropped (dyn : gset string) (k : string) : bool :=
  bool_decide (k ∈ hopByHopHeaders) || bool_decide (k ∈ dyn).

(** The second loop, over the fields of [src] in the order the runtime
    visits them. *)
Definition copyField (dyn : gset string) (dst : gmap string (list string))
    (field : string * list string) : gmap string (list string) :=
  if dropped dyn field.1 then dst
  else foldl (fun d v => Header.Add d field.1 v) dst field.2.

Definition copyFields (dyn : gset string) (dst : gmap string (list string))
    (fields : list (string * list string)) : gmap string (list string) :=
  foldl (copyField dyn) dst fields.

(** Go does not fix the order in which [range] visits a map: [copyHeaders]
    relates the two header collections to every destination that some order
    of the fields of [src] gives.  [dst] and [src] are two maps, as at both
    calls in [processRequest]. *)
Definition copyHeaders (dst src dst' : gmap string (list string)) : Prop :=
  ∃ fields, fields ≡ₚ map_to_list src
            ∧ dst' = copyFields (dynDropHdrs src) dst fields.

(** ** The handlers and the world around them *)

Definition error : Type := string.

Definition StatusInternalServerError : Z := 500.

Definition CRLF : string := String "013" (String "010" EmptyString).

(** The literal of line 153, ["HTTP/1.0 200 Connection established\r\n\r\n"]. *)
Definition connectionEstablished : string :=
  "HTTP/1.0 200 Connection established" ++ CRLF ++ CRLF.

(** The fields of [http.Request] that the file reads. *)
Record Request := {
  Method : string;
  Host : string;
  RequestURI : string;
  URLHost : string;
  RemoteAddr : string;
  Proto : string;
  ReqHeader : gmap string (list string)
}.

(** The request [http.NewRequest] builds and the file sends upstream. *)
Record ProxyRequest := {
  proxyMethod : string;
  proxyURL : string;
  proxyBody : string;
  proxyHeader : gmap string (list string)
}.

(** What [http.ReadResponse] returns. *)
Record Response := {
  StatusCode : Z;
  RespHeader : gmap string (list string)
}.

Record HTTPProxyHandler := {
  server : string;
  UserAgent : string
}.

(** The calls a handler makes on the objects it is given or opens, in program
    order.  A call is logged with its arguments, whatever its outcome. *)
Inductive call : Type :=
| ReadAllBody                                     (* ioutil.ReadAll(req.Body) *)
| CloseBody                                       (* req.Body.Close() *)
| Logf (format : string)
| NetDial (addr : string)                         (* net.Dial("tcp", h.server) *)
| RcWrite (p : string)                            (* rc.Write(tgt) *)
| RcWriteRequest (r : ProxyRequest)               (* proxyReq.Write(rc) *)
| RcReadResponse                                  (* http.ReadResponse(rc) *)
| RcClose                                         (* rc.Close() *)
| RespHeaderCopy (h : gmap string (list string))  (* resp.Header(), filled *)
| RespWriteHeader (status : Z)                    (* resp.WriteHeader(status) *)
| RespCopyBody (p : string)                       (* io.Copy(resp, body) *)
| CloseResponseBody                               (* proxyResp.Body.Close() *)
| HijackConnection                                (* http_.HijackConnection(resp) *)
| ClientConnWrite (p : string)                    (* clientConn.Write(p) *)
| ClientConnClose                                 (* clientConn.Close() *)
| Relay (toUpstream toClient : string).           (* the two transfers, joined *)

(** What the world outside the file answers: the other packages of the
    repository ([socks.ParseAddr]), the runtime's order of visit of a map,
    and the outcome of every call that can fail ([None] is Go's [nil]). *)
Record Env := {
  ParseAddr : string → string;
  mapRange : gmap string (list string) → list (string * list string);
  respHeader : gmap string (list string);
  readAll : string * option error;
  dial : option error;
  writeTarget : option error;
  newRequest : option error;
  writeRequest : option error;
  readResponse : error + Response;
  copyBody : string * option error;
  hijack : option error;
  writeAck : option error;
  relayed : string * string
}.

(** A function body: it reads the log of the calls made so far and either
    goes on with a value or has executed a [return]. *)
Inductive outcome (A : Type) : Type :=
| Continue (a : A)
| Returned (err : option error).
Arguments Continue {A} a.
Arguments Returned {A} err.

Definition Prog (A : Type) : Type := list call → outcome A * list call.

#[global] Instance Prog_ret : MRet Prog := λ A a log, (Continue a, log).

#[global] Instance Prog_bind : MBind Prog := λ A B f m log,
  match m log with
  | (Continue a, log') => f a log'
  | (Returned err, log') => (Returned err, log')
  end.

Definition perform (c : call) : Prog unit :=
  λ log, (Continue tt, (log ++ [c])%list).

Definition return_ {A : Type} (err : option error) : Prog A :=
  λ log, (Returned err, log).

(** [defer c] followed by the rest of the body: [c] is made when the rest has
    returned, so nested defers run last one first. *)
Definition defer {A : Type} (c : call) (rest : Prog A) : Prog A :=
  λ log, let '(o, log') := rest log in (o, (log' ++ [c])%list).

(** The value a function returns and the calls it made. *)
Definition run (body : Prog unit) : option error * list call :=
  match body [] with
  | (Returned err, log) => (err, log)
  | (Continue _, log) => (None, log)
  end.

Definition logRequest (req : Request) : Prog unit :=
  perform (Logf "proto:%s, method:%s, host:%s").

(** [getConn]: the dialled connection, wrapped by [timedCork] when the
    configuration asks for it and by [h.shadow]; both wrappers keep the
    connection's interface, and [rc] below is the wrapped connection. *)
Definition getConn (h : HTTPProxyHandler) (env : Env) : Prog (option error) :=
  perform (NetDial (server h));;
  mret (dial env).

(** Lines 80-83. *)
Definition targetHost (host : string) : string :=
  if negb (strings.Contains host ":") then host ++ ":80" else host.

Definition copyHeadersIn (env : Env) (dst src : gmap string (list string))
  : gmap string (list string) :=
  copyFields (dynDropHdrs src) dst (mapRange env src).

Definition processRequest (h : HTTPProxyHandler) (env : Env) (req : Request)
  : Prog unit :=
  perform ReadAllBody;;
  let '(body, err) := readAll env in
  defer CloseBody (
    logRequest req;;
    err ← getConn h env;
    match err with
    | Some e =>
        perform (Logf "failed to connect to server %v: %v");;
        perform (RespWriteHeader StatusInternalServerError);;
        return_ (Some e)
    | None =>
    defer RcClose (
      let tgt := ParseAddr env (targetHost (Host req)) in
      perform (Logf "proxy %s <-> %s <-> %s");;
      perform (RcWrite tgt);;
      match writeTarget env with
      | Some e =>
          perform (Logf "failed to send target address: %v");;
          return_ (Some e)
      | None =>
      match newRequest env with
      | Some e =>
          perform (RespWriteHeader StatusInternalServerError);;
          return_ (Some e)
      | None =>
      let proxyReqHeader := copyHeadersIn env ∅ (ReqHeader req) in
      let proxyReqHeader :=
        if negb (String.eqb (UserAgent h) "")
        then Header.Add proxyReqHeader "User-Agent" (UserAgent h)
        else proxyReqHeader in
      let proxyReq :=
        {| proxyMethod := Method req; proxyURL := RequestURI req;
           proxyBody := body; proxyHeader := proxyReqHeader |} in
      perform (RcWriteRequest proxyReq);;
      match writeRequest env with
      | Some e =>
          perform (RespWriteHeader StatusInternalServerError);;
          return_ (Some e)
      | None =>
      perform RcReadResponse;;
      match readResponse env with
      | inl e =>
          perform (RespWriteHeader StatusInternalServerError);;
          return_ (Some e)
      | inr proxyResp =>
          perform (RespHeaderCopy
                     (copyHeadersIn env (respHeader env) (RespHeader proxyResp)));;
          perform (RespWriteHeader (StatusCode proxyResp));;
          let '(written, err) := copyBody env in
          perform (RespCopyBody written);;
          perform CloseResponseBody;;
          return_ err
      end end end end)
    end).

Definition handleConnect (h : HTTPProxyHandler) (env : Env) (req : Request)
  : Prog unit :=
  defer CloseBody (
    logRequest req;;
    err ← getConn h env;
    match err with
    | Some e =>
        perform (Logf "failed to connect to server %v: %v");;
        perform (RespWriteHeader StatusInternalServerError);;
        return_ (Some e)
    | None =>
    defer RcClose (
      let tgt := ParseAddr env (URLHost req) in
      perform (Logf "proxy %s <-> %s <-> %s");;
      perform (RcWrite tgt);;
      match writeTarget env with
      | Some e =>
          perform (Logf "failed to send target address: %v");;
          return_ (Some e)
      | None =>
      perform HijackConnection;;
      match hijack env with
      | Some e =>
          perform (RespWriteHeader StatusInternalServerError);;
          return_ (Some e)
      | None =>
      defer ClientConnClose (
        perform (ClientConnWrite connectionEstablished);;
        match writeAck env with
        | Some e =>
            perform (RespWriteHeader StatusInternalServerError);;
            return_ (Some e)
        | None =>
            let '(toUpstream, toClient) := relayed env in
            perform (Relay toUpstream toClient);;
            return_ None
        end)
      end end)
    end).

(** [ServeHTTP]: the handler chosen by the method, and the error logged. *)
Definition ServeHTTP (h : HTTPProxyHandler) (env : Env) (req : Request)
  : list call :=
  let '(err, log) :=
    run (if String.eqb (Method req) "CONNECT"
         then handleConnect h env req else processRequest h env req) in
  match err with
  | Some _ => (log ++ [Logf "Error serving proxy relay:"])%list
  | None => log
  end.

(** ** The relay of [handleConnect], goroutine by goroutine

    Lines 159-163 and [transfer]: the handler adds two to a wait group,
    starts one [transfer] per direction and waits; a [transfer] runs
    [io.Copy], drops its two results and calls [wg.Done()].  The three
    goroutines interleave freely: a step of the relay is a step of any one
    of them. *)

Inductive goroutine : Type :=
| NotStarted
| Copying (copied : string)                        (* inside io.Copy *)
| CopyReturned (copied : string) (err : option error)
| Exited.                                          (* wg.Done() made *)

Inductive handlerPc : Type :=
| AtAdd                                            (* wg.Add(2) *)
| AtGoUpstream                                     (* go transfer(&wg, rc, clientInput) *)
| AtGoClient                                       (* go transfer(&wg, clientConn, rc) *)
| AtWait                                           (* wg.Wait() *)
| AtReturn (result : option error).                (* return nil *)

Record relayState := {
  pc : handlerPc;
  wg : Z;
  upstreamTransfer : goroutine;
  clientTransfer : goroutine
}.

Definition relayInit : relayState :=
  {| pc := AtAdd; wg := 0;
     upstreamTransfer := NotStarted; clientTransfer := NotStarted |}.

(** A step of [transfer]: [io.Copy] moves some bytes, or returns (with [nil]
    at the end of the stream, with the error of a read or a write
    otherwise), or the wait group is told. *)
Inductive transferStep : goroutine → Z → goroutine → Z → Prop :=
| copy_chunk copied chunk n :
    transferStep (Copying copied) n (Copying (copied ++ chunk)) n
| copy_returns copied err n :
    transferStep (Copying copied) n (CopyReturned copied err) n
| wg_done copied err n :
    transferStep (CopyReturned copied err) n Exited (n - 1).

Inductive relayStep : relayState → relayState → Prop :=
| step_add s :
    pc s = AtAdd →
    relayStep s {| pc := AtGoUpstream; wg := wg s + 2;
                   upstreamTransfer := upstreamTransfer s;
                   clientTransfer := clientTransfer s |}
| step_go_upstream s :
    pc s = AtGoUpstream →
    relayStep s {| pc := AtGoClient; wg := wg s;
                   upstreamTransfer := Copying "";
                   clientTransfer := clientTransfer s |}
| step_go_client s :
    pc s = AtGoClient →
    relayStep s {| pc := AtWait; wg := wg s;
                   upstreamTransfer := upstreamTransfer s;
                   clientTransfer := Copying "" |}
| step_wait s :
    pc s = AtWait → wg s = 0%Z →
    relayStep s {| pc := AtReturn None; wg := wg s;
                   upstreamTransfer := upstreamTransfer s;
                   clientTransfer := clientTransfer s |}
| step_upstream s g n :
    transferStep (upstreamTransfer s) (wg s) g n →
    relayStep s {| pc := pc s; wg := n;
                   upstreamTransfer := g;
                   clientTransfer := clientTransfer s |}
| step_client s g n :
    transferStep (clientTransfer s) (wg s) g n →
    relayStep s {| pc := pc s; wg := n;
                   upstreamTransfer := upstreamTransfer s;
                   clientTransfer := g |}.

(** The states the relay can be in, over all interleavings. *)
Definition relayReachable (s : relayState) : Prop := rtc relayStep relayInit s.

(** What the wait group counts: the transfers that have not made their
    [wg.Done()] yet. *)
Definition pending (g : goroutine) : Z :=
  match g with Exited => 0 | _ => 1 end.

Definition started (g : goroutine) : Prop := g ≠ NotStarted.

(** The invariant of the relay, by the handler's position. *)
Definition relayInv (s : relayState) : Prop :=
  match pc s with
  | AtAdd =>
      wg s = 0%Z ∧ upstreamTransfer s = NotStarted
      ∧ clientTransfer s = NotStarted
  | AtGoUpstream =>
      wg s = 2%Z ∧ upstreamTransfer s = NotStarted
      ∧ clientTransfer s = NotStarted
  | AtGoClient =>
      wg s = (pending (upstreamTransfer s) + 1)%Z
      ∧ started (upstreamTransfer s) ∧ clientTransfer s = NotStarted
  | AtWait =>
      wg s = (pending (upstreamTransfer s) + pending (clientTransfer s))%Z
      ∧ started (upstreamTransfer s) ∧ started (clientTransfer s)
  | AtReturn result =>
      wg s = 0%Z ∧ upstreamTransfer s = Exited ∧ clientTransfer s = Exited
      ∧ result = None
  end.

(** The relay when it has returned. *)
Definition relayDone : relayState :=
  {| pc := AtReturn None; wg := 0;
     upstreamTransfer := Exited; clientTransfer := Exited |}.

(** ** Reading a log *)

Definition isHijack (c : call) : bool :=
  match c with HijackConnection => true | _ => false end.

Definition isRelay (c : call) : bool :=
  match c with Relay _ _ => true | _ => false end.

(** The calls made through the [http.ResponseWriter]. *)
Definition usesResponse (c : call) : bool :=
  match c with
  | RespHeaderCopy _ | RespWriteHeader _ | RespCopyBody _ => true
  | _ => false
  end.

(** The calls that write on the upstream connection. *)
Definition writesUpstream (c : call) : bool :=
  match c with
  | RcWrite _ | RcWriteRequest _ | Relay _ _ => true
  | _ => false
  end.

Definition isStatus (status : Z) (c : call) : bool :=
  match c with RespWriteHeader s => (s =? status)%Z | _ => false end.

(** The calls before, and after, the first one that [p] holds of. *)
Fixpoint callsBefore (p : call → bool) (log : list call) : list call :=
  match log with
  | [] => []
  | c :: log' => if p c then [] else c :: callsBefore p log'
  end.

Fixpoint callsAfter (p : call → bool) (log : list call) : list call :=
  match log with
  | [] => []
  | c :: log' => if p c then log' else callsAfter p log'
  end.

(** The byte strings written on the raw client connection, in order. *)
Fixpoint clientConnWrites (log : list call) : list string :=
  match log with
  | [] => []
  | ClientConnWrite p :: log' => p :: clientConnWrites log'
  | _ :: log' => clientConnWrites log'
  end.

(** The requests sent upstream. *)
Fixpoint requestsSent (log : list call) : list ProxyRequest :=
  match log with
  | [] => []
  | RcWriteRequest r :: log' => r :: requestsSent log'
  | _ :: log' => requestsSent log'
  end.

Definition withReadAll (env : Env) (r : string * option error) : Env :=
  {| ParseAddr := ParseAddr env; mapRange := mapRange env;
     respHeader := respHeader env; readAll := r; dial := dial env;
     writeTarget := writeTarget env; newRequest := newRequest env;
     writeRequest := writeRequest env; readResponse := readResponse env;
     copyBody := copyBody env; hijack := hijack env;
     writeAck := writeAck env; relayed := relayed env |}.

(** ** The design document's token grammar

    [^[A-Za-z0-9!#$%&'*+\-.^_`|~]+$], written from the document and compared
    below with the pattern of the source. *)
Definition grammarChar (c : ascii) : bool :=
  between 65 90 c || between 97 122 c || between 48 57 c
  || oneOf "!#$%&'*+-.^_`|~" c.

Definition grammarToken (s : string) : Prop :=
  s ≠ "" ∧ Forall (λ c, grammarChar c = true) (list_ascii_of_string s).

(** [strings.Join(parts, sep)] for a separator of one byte, to say what
    [strings.Split] is the inverse of. *)
Fixpoint Join (parts : list string) (sep : ascii) : string :=
  match parts with
  | [] => ""
  | [p] => p
  | p :: ps => p ++ String sep (Join ps sep)
  end.

(** A concrete world, for the examples: the identity for the destination
    encoder, the map's own list for the order of visit, every call a
    success. *)
Definition quietEnv : Env :=
  {| ParseAddr := λ s, s; mapRange := map_to_list; respHeader := ∅;
     readAll := ("", None); dial := None; writeTarget := None;
     newRequest := None; writeRequest := None;
     readResponse := inr {| StatusCode := 200; RespHeader := ∅ |};
     copyBody := ("", None); hijack := None; writeAck := None;
     relayed := ("", "") |}.

Definition exampleHandler : HTTPProxyHandler :=
  {| server := "127.0.0.1:8488"; UserAgent := "" |}.

Definition getRequest : Request :=
  {| Method := "GET"; Host := "example.com";
     RequestURI := "http://example.com/"; URLHost := "example.com";
     RemoteAddr := "127.0.0.1:40000"; Proto := "HTTP/1.1";
     ReqHeader := {[ "User-Agent" := ["curl/8.0"] ]} |}.

Definition connectRequest : Request :=
  {| Method := "CONNECT"; Host := "example.com:443";
     RequestURI := "example.com:443"; URLHost := "example.com:443";
     RemoteAddr := "127.0.0.1:40000"; Proto := "HTTP/1.1";
     ReqHeader := ∅ |}.

(** A client's header, and what the sanitizer makes of it. *)
Definition exampleSource : gmap string (list string) :=
  {[ "Connection" := ["close, X-Foo"]; "X-Foo" := ["1"];
     "Keep-Alive" := ["300"]; "Accept" := ["text/html"; "text/plain"] ]}.

Definition exampleCopy : gmap string (list string) :=
  {[ "Accept" := ["text/html"; "text/plain"] ]}.

(** The same world with the write of the destination token failing, and with
    the write of the acknowledgment failing. *)
Definition tokenWriteFails : Env :=
  {| ParseAddr := ParseAddr quietEnv; mapRange := mapRange quietEnv;
     respHeader := respHeader quietEnv; readAll := readAll quietEnv;
     dial := None; writeTarget := Some "write tcp: broken pipe";
     newRequest := None; writeRequest := None;
     readResponse := readResponse quietEnv; copyBody := copyBody quietEnv;
     hijack := None; writeAck := None; relayed := relayed quietEnv |}.

Definition ackWriteFails : Env :=
  {| ParseAddr := ParseAddr quietEnv; mapRange := mapRange quietEnv;
     respHeader := respHeader quietEnv; readAll := readAll quietEnv;
     dial := None; writeTarget := None;
     newRequest := None; writeRequest := None;
     readResponse := readResponse quietEnv; copyBody := copyBody quietEnv;
     hijack := None; writeAck := Some "write tcp: connection reset by peer";
     relayed := relayed quietEnv |}.

Definition fixedAgentHandler : HTTPProxyHandler :=
  {| server := "127.0.0.1:8488"; UserAgent := "Fixed/1.0" |}.

(** ** Reading the result of [copyHeaders] *)

(** What a run of the loop adds to the values of [name]: the values of the
    fields, in the order of visit, that are not dropped and whose canonical
    name is [name]. *)
Definition keptAs (dyn : gset string) (name : string)
    (field : string * list string) : Prop :=
  dropped dyn field.1 = false
  ∧ textproto.CanonicalMIMEHeaderKey field.1 = name.

#[local] Instance keptAs_dec dyn name field : Decision (keptAs dyn name field).
Proof. unfold keptAs. apply _. Defined.

(** Go's [h[k] = append(h[k], vs...)]: no key is made for no value. *)
Definition appendValues (old : option (list string)) (vs : list string)
  : option (list string) :=
  match vs with
  | [] => old
  | _ :: _ => Some (default [] old ++ vs)%list
  end.

(** ** More ways to read a log *)

Definition isDial (c : call) : bool :=
  match c with NetDial _ => true | _ => false end.

Definition isStatusLine (c : call) : bool :=
  match c with RespWriteHeader _ => true | _ => false end.

Definition isErrorLine (c : call) : bool :=
  match c with Logf format => String.eqb format "Error serving proxy relay:"
  | _ => false end.

(** The calls only [processRequest] makes, and the calls only
    [handleConnect] makes. *)
Definition plainOnly (c : call) : bool :=
  match c with
  | ReadAllBody | RcWriteRequest _ | RcReadResponse | RespHeaderCopy _
  | RespCopyBody _ | CloseResponseBody => true
  | _ => false
  end.

Definition tunnelOnly (c : call) : bool :=
  match c with
  | HijackConnection | ClientConnWrite _ | ClientConnClose | Relay _ _ => true
  | _ => false
  end.

(** The calls that close what a handler holds. *)
Definition closesUpstream (c : call) : bool :=
  match c with RcClose => true | _ => false end.

Definition closesBody (c : call) : bool :=
  match c with CloseBody => true | _ => false end.

Definition closesClientConn (c : call) : bool :=
  match c with ClientConnClose => true | _ => false end.

(** The calls made on the upstream connection. *)
Definition usesUpstream (c : call) : bool :=
  match c with
  | RcWrite _ | RcWriteRequest _ | RcReadResponse | RcClose | Relay _ _ => true
  | _ => false
  end.

(** The calls made on the raw client connection. *)
Definition usesClientConn (c : call) : bool :=
  match c with
  | ClientConnWrite _ | ClientConnClose | Relay _ _ => true
  | _ => false
  end.

(** The first error of a series of outcomes, in program order. *)
Fixpoint firstError (outcomes : list (option error)) : option error :=
  match outcomes with
  | [] => None
  | Some e :: _ => Some e
  | None :: rest => firstError rest
  end.

Definition readResponseError (env : Env) : option error :=
  match readResponse env with inl e => Some e | inr _ => None end.

(** The calls that can fail, in the order each handler makes them. *)
Definition plainOutcomes (env : Env) : list (option error) :=
  [dial env; writeTarget env; newRequest env; writeRequest env;
   readResponseError env; (copyBody env).2].

Definition tunnelOutcomes (env : Env) : list (option error) :=
  [dial env; writeTarget env; hijack env; writeAck env].

(** The outcomes that count for the handler [ServeHTTP] chooses. *)
Definition servedOutcomes (env : Env) (req : Request) : list (option error) :=
  if String.eqb (Method req) "CONNECT"
  then tunnelOutcomes env else plainOutcomes env.

(** The header collections net/http hands over: every key is in canonical
    form. *)
Definition canonicalKeys (h : gmap string (list string)) : Prop :=
  ∀ k, is_Some (h !! k) → textproto.CanonicalMIMEHeaderKey k = k.

(** What one field of the source gives a name of the destination when the
    keys are canonical. *)
Definition fieldValues (src : gmap string (list string)) (name : string)
  : list string :=
  if dropped (dynDropHdrs src) name then [] else Header.values src name.


(** The measure of what is left of a relay: the steps of the handler and of
    the two transfers up to the return, a transfer that copies being taken
    to return at once. *)
Definition stepsLeft (g : goroutine) : nat :=
  match g with
  | NotStarted => 2 | Copying _ => 2 | CopyReturned _ _ => 1 | Exited => 0
  end.

(** An upstream response and a client request for the examples. *)
Definition exampleResponse : Response :=
  {| StatusCode := 404;
     RespHeader := {[ "Connection" := ["close"]; "Content-Type" := ["text/html"] ]} |}.

Definition notFoundEnv : Env :=
  {| ParseAddr := ParseAddr quietEnv; mapRange := mapRange quietEnv;
     respHeader := ∅; readAll := ("", None); dial := None;
     writeTarget := None; newRequest := None; writeRequest := None;
     readResponse := inr exampleResponse;
     copyBody := ("<html>", Some "write: broken pipe");
     hijack := None; writeAck := None; relayed := relayed quietEnv |}.

Definition dialFails : Env :=
  {| ParseAddr := ParseAddr quietEnv; mapRange := mapRange quietEnv;
     respHeader := ∅; readAll := ("", None);
     dial := Some "dial tcp: connection refused";
     writeTarget := None; newRequest := None; writeRequest := None;
     readResponse := readResponse quietEnv; copyBody := copyBody quietEnv;
     hijack := None; writeAck := None; relayed := relayed quietEnv |}.

(** * Properties *)

(** ** The string functions *)

Lemma HasPrefix_spec (s prefix : string) :
  strings.HasPrefix s prefix = true ↔ ∃ rest, s = prefix ++ rest.
Proof.
  revert s. induction prefix as [|p prefix IH]; intros s; simpl.
  - split; [intros _; by exists s | done].
  - destruct s as [|c s].
    + split; [done | intros [rest H]; discriminate H].
    + rewrite andb_true_iff, IH. split.
      * intros [Hc [rest ->]]. apply Ascii.eqb_eq in Hc as ->. by exists rest.
      * intros [rest H]. injection H as -> ->.
        split; [apply Ascii.eqb_refl | by exists rest].
Qed.

Lemma Contains_spec (s substr : string) :
  strings.Contains s substr = true ↔ ∃ before after, s = before ++ substr ++ after.
Proof.
  induction s as [|c s IH].
  - cbn [strings.Contains]. rewrite orb_false_r, HasPrefix_spec. split.
    + intros [rest H]. by exists "", rest.
    + intros [[|b before] [after H]]; [by exists after | discriminate H].
  - cbn [strings.Contains]. rewrite orb_true_iff, HasPrefix_spec, IH. split.
    + intros [[rest H] | (before & after & H)].
      * by exists "", rest.
      * exists (String c before), after. simpl. by rewrite H.
    + intros ([|b before] & after & H).
      * left. by exists after.
      * right. simpl in H. injection H as _ H. by exists before, after.
Qed.

Lemma Split_cons (s : string) (sep : ascii) :
  ∃ p ps, strings.Split s sep = p :: ps.
Proof.
  induction s as [|c s (p & ps & IH)]; simpl; [by eexists _, _ |].
  destruct (Ascii.eqb c sep); [by eexists _, _ |].
  rewrite IH. by eexists _, _.
Qed.

(** Joining the pieces with the separator gives the string back. *)
Lemma Join_Split (s : string) (sep : ascii) :
  Join (strings.Split s sep) sep = s.
Proof.
  induction s as [|c s IH]; [done |].
  cbn [strings.Split]. destruct (Split_cons s sep) as (p & ps & Hs).
  rewrite Hs in IH |- *. destruct (Ascii.eqb_spec c sep) as [-> | _].
  - by rewrite <- IH.
  - destruct ps as [|q ps]; by rewrite <- IH.
Qed.

(** No piece holds the separator. *)
Lemma Split_no_sep (s : string) (sep : ascii) (part : string) :
  part ∈ strings.Split s sep → ¬ In sep (list_ascii_of_string part).
Proof.
  revert part. induction s as [|c s IH]; intros part; cbn [strings.Split].
  - intros ->%list_elem_of_singleton. simpl. tauto.
  - destruct (Split_cons s sep) as (p & ps & Hs). rewrite Hs in IH |- *.
    destruct (Ascii.eqb_spec c sep) as [-> | Hne].
    + intros [-> | Hin]%elem_of_cons; [simpl; tauto | by apply IH].
    + intros [-> | Hin]%elem_of_cons.
      * simpl. intros [? | Hin]; [done |].
        eapply IH; [|exact Hin]. apply elem_of_cons. by left.
      * apply IH. apply elem_of_cons. by right.
Qed.

(** [strings.TrimSpace] returns a piece of its argument that neither starts
    nor ends with one of the six white-space bytes of ASCII. *)

Lemma append_cons (c : ascii) (s t : string) :
  String c s ++ t = String c (s ++ t).
Proof. reflexivity. Qed.

Lemma append_nil_r (s : string) : s ++ "" = s.
Proof. induction s as [|c s IH]; [done |]. by rewrite append_cons, IH. Qed.

Lemma append_assoc (s t u : string) : (s ++ t) ++ u = s ++ t ++ u.
Proof. induction s as [|c s IH]; [done |]. by rewrite !append_cons, IH. Qed.

Lemma rev_app_append (s t u : string) :
  String.rev_app s t ++ u = String.rev_app s (t ++ u).
Proof. revert t. induction s as [|c s IH]; intros t; [done |]. apply IH. Qed.

Lemma rev_cons (c : ascii) (s : string) :
  String.rev (String c s) = String.rev s ++ String c "".
Proof. unfold String.rev. cbn [String.rev_app]. by rewrite rev_app_append. Qed.

Lemma rev_append (s t : string) :
  String.rev (s ++ t) = String.rev t ++ String.rev s.
Proof.
  induction s as [|c s IH].
  - by rewrite append_nil_r.
  - by rewrite append_cons, !rev_cons, IH, append_assoc.
Qed.

Lemma rev_involutive (s : string) : String.rev (String.rev s) = s.
Proof.
  induction s as [|c s IH]; [done |]. by rewrite rev_cons, rev_append, IH.
Qed.

Lemma trimFront_bounded (backwards : bool) (n : nat) (s : string) :
  (String.length s ≤ n)%nat →
  (∃ before, s = before ++ strings.trimFront backwards s)
  ∧ ∀ c rest, strings.trimFront backwards s = String c rest →
              strings.asciiSpace c = false.
Proof.
  revert s. induction n as [|n IH]; intros s Hn.
  { destruct s; [| simpl in Hn; lia]. split; [by exists "" | done]. }
  assert (∀ before r, s = before ++ r → (String.length r ≤ n)%nat →
            (∃ before, s = before ++ strings.trimFront backwards r)
            ∧ ∀ c rest, strings.trimFront backwards r = String c rest →
                        strings.asciiSpace c = false) as Hrec.
  { intros before r -> Hr. destruct (IH r Hr) as [[before' Hb] Hc].
    split; [| done]. exists (before ++ before').
    by rewrite append_assoc, <- Hb. }
  destruct s as [|c1 [|c2 [|c3 r3]]]; cbn [strings.trimFront];
    cbn [String.length] in Hn.
  - split; [by exists "" | done].
  - destruct (strings.asciiSpace c1) eqn:H1.
    + apply (Hrec (String c1 "") ""); [reflexivity | cbn [String.length]; lia].
    + split; [by exists "" | by intros ? ? [= <- _]].
  - destruct (strings.asciiSpace c1) eqn:H1.
    + apply (Hrec (String c1 "") (String c2 ""));
        [reflexivity | cbn [String.length]; lia].
    + destruct (if backwards then _ else _).
      * apply (Hrec (String c1 (String c2 "")) "");
          [reflexivity | cbn [String.length]; lia].
      * split; [by exists "" | by intros ? ? [= <- _]].
  - destruct (strings.asciiSpace c1) eqn:H1.
    + apply (Hrec (String c1 "") (String c2 (String c3 r3)));
        [reflexivity | cbn [String.length]; lia].
    + destruct (if backwards then strings.space2 _ _ else _).
      * apply (Hrec (String c1 (String c2 "")) (String c3 r3));
          [reflexivity | cbn [String.length]; lia].
      * destruct (if backwards then _ else _).
        -- apply (Hrec (String c1 (String c2 (String c3 ""))) r3);
             [reflexivity | cbn [String.length]; lia].
        -- split; [by exists "" | by intros ? ? [= <- _]].
Qed.

Lemma TrimSpace_trims (s : string) :
  (∃ before after, s = before ++ strings.TrimSpace s ++ after)
  ∧ (∀ c rest, strings.TrimSpace s = String c rest →
               strings.asciiSpace c = false)
  ∧ (∀ c rest, strings.TrimSpace s = rest ++ String c "" →
               strings.asciiSpace c = false).
Proof.
  unfold strings.TrimSpace.
  destruct (trimFront_bounded false _ s (le_n _)) as [[before Hs] Hfirst].
  set (t := strings.trimFront false s) in *.
  destruct (trimFront_bounded true _ (String.rev t) (le_n _))
    as [[after Ht] Hlast].
  set (u := strings.trimFront true (String.rev t)) in *.
  assert (t = String.rev u ++ String.rev after) as Htu.
  { by rewrite <- rev_append, <- Ht, rev_involutive. }
  split; [| split].
  - exists before, (String.rev after). by rewrite <- Htu.
  - intros c rest Hu. apply (Hfirst c (rest ++ String.rev after)).
    by rewrite Htu, Hu.
  - intros c rest Hu. apply (Hlast c (String.rev rest)).
    by rewrite <- (rev_involutive u), Hu, rev_append.
Qed.

(** White space outside ASCII is trimmed too, and white space inside is
    kept. *)
Example TrimSpace_unicode :
  strings.TrimSpace
    (String "009" (String "194" (String "160"
       ("keep alive" ++ String "227" (String "128" (String "128" CRLF))))))
  = "keep alive".
Proof. reflexivity. Qed.

Example CanonicalMIMEHeaderKey_examples :
  textproto.CanonicalMIMEHeaderKey <$> ["user-agent"; "X-FOO-bar"; "bad key"; ""]
  = ["User-Agent"; "X-Foo-Bar"; "bad key"; ""].
Proof. reflexivity. Qed.

(** ** C6: the default port *)



(** ** The token pattern and the dynamic drop set *)

(** The class of the source's pattern is the class of the document's
    grammar, byte by byte. *)
Lemma tokenPatternClass_grammarChar (c : ascii) :
  tokenPatternClass c = grammarChar c.
Proof. destruct c as [[] [] [] [] [] [] [] []]; reflexivity. Qed.

Lemma MatchString_grammarToken (s : string) :
  tokenPattern.MatchString s = true ↔ grammarToken s.
Proof.
  unfold grammarToken. destruct s as [|c s].
  - simpl. split; [done | by intros [? _]].
  - cbn [tokenPattern.MatchString]. rewrite forallb_forall, List.Forall_forall.
    split.
    + intros H. split; [done |]. intros x Hx.
      rewrite <- tokenPatternClass_grammarChar. by apply H.
    + intros [_ H] x Hx. rewrite tokenPatternClass_grammarChar. by apply H.
Qed.

(** A byte outside the grammar's class anywhere in a string, a space or a
    control character among them, makes the pattern fail. *)
Lemma MatchString_bad_byte (s : string) (c : ascii) :
  In c (list_ascii_of_string s) → grammarChar c = false →
  tokenPattern.MatchString s = false.
Proof.
  intros Hin Hc. apply not_true_is_false. intros [_ H]%MatchString_grammarToken.
  rewrite List.Forall_forall in H. specialize (H c Hin). congruence.
Qed.

Lemma processPart_drop (st : gset string * list string) (parts : list string)
    (k : string) :
  k ∈ (foldl processPart st parts).1
  ↔ k ∈ st.1 ∨ ∃ part, part ∈ parts ∧ k = strings.TrimSpace part
                       ∧ tokenPattern.MatchString k = true.
Proof.
  revert st. induction parts as [|p parts IH]; intros st; simpl.
  - split; [by left | intros [? | (? & []%elem_of_nil & _)]; done].
  - rewrite IH. unfold processPart.
    destruct (tokenPattern.MatchString (strings.TrimSpace p)) eqn:Hm; simpl.
    + rewrite elem_of_union, elem_of_singleton. split.
      * intros [[-> | ?] | (part & ? & ? & ?)]; [right | by left | right].
        -- exists p. by rewrite elem_of_cons; auto.
        -- exists part. by rewrite elem_of_cons; auto.
      * intros [? | (part & [-> | ?]%elem_of_cons & -> & ?)]; [by auto | by auto |].
        right. by exists part.
    + split.
      * intros [? | (part & ? & ? & ?)]; [by left | right].
        exists part. by rewrite elem_of_cons; auto.
      * intros [? | (part & [-> | ?]%elem_of_cons & -> & ?)]; [by left | congruence |].
        right. by exists part.
Qed.

Lemma processConnectionHdr_drop (dropHdrs : gset string) (value k : string) :
  k ∈ (processConnectionHdr dropHdrs value).1
  ↔ k ∈ dropHdrs ∨ ∃ part, part ∈ strings.Split value ","
                           ∧ k = strings.TrimSpace part
                           ∧ tokenPattern.MatchString k = true.
Proof. unfold processConnectionHdr. by rewrite processPart_drop. Qed.

(** The tokens that fail are returned, in order, and nothing else is. *)
Lemma processConnectionHdr_bad (dropHdrs : gset string) (value : string) :
  (processConnectionHdr dropHdrs value).2
  = List.filter (λ t, negb (tokenPattern.MatchString t))
      (strings.TrimSpace <$> strings.Split value ",").
Proof.
  unfold processConnectionHdr.
  enough (∀ parts st, (foldl processPart st parts).2
            = (st.2 ++ List.filter (λ t, negb (tokenPattern.MatchString t))
                         (strings.TrimSpace <$> parts))%list) as H
    by (by rewrite H).
  induction parts as [|p parts IH]; intros st; simpl.
  - by rewrite app_nil_r.
  - rewrite IH. unfold processPart.
    destruct (tokenPattern.MatchString (strings.TrimSpace p)); simpl; [done |].
    by rewrite <- app_assoc.
Qed.

Lemma dynDrop_values (vals : list string) (d : gset string) (k : string) :
  k ∈ foldl (λ d v, (processConnectionHdr d v).1) d vals
  ↔ k ∈ d ∨ ∃ v part, v ∈ vals ∧ part ∈ strings.Split v ","
                      ∧ k = strings.TrimSpace part
                      ∧ tokenPattern.MatchString k = true.
Proof.
  revert d. induction vals as [|v vals IH]; intros d; simpl.
  - split; [by left | intros [? | (? & ? & []%elem_of_nil & _)]; done].
  - rewrite IH, processConnectionHdr_drop. split.
    + intros [[? | (part & ? & ? & ?)] | (w & part & ? & ? & ? & ?)].
      * by left.
      * right. exists v, part. by rewrite elem_of_cons; auto.
      * right. exists w, part. by rewrite elem_of_cons; auto.
    + intros [? | (w & part & [-> | ?]%elem_of_cons & ? & ? & ?)].
      * by auto.
      * left. right. by exists part.
      * right. by exists w, part.
Qed.

(** ** C3: the dynamic drop set *)

(** C3. For every source header collection, a name is in the dynamic drop
    set exactly when it is the white-space-trimmed form of one of the
    comma-separated pieces of one of the values of the [Connection] header
    and it matches the token grammar of the document.  Hence a piece that
    fails the grammar, by holding a byte outside the class, is not added, and
    takes nothing away from what the other pieces add; the sanitizer has a
    result whatever the pieces are. *)
Theorem dynamic_drop_set (src : gmap string (list string)) (k : string) :
  (k ∈ dynDropHdrs src
   ↔ ∃ vals v part, src !! "Connection" = Some vals ∧ v ∈ vals
                    ∧ part ∈ strings.Split v ","
                    ∧ k = strings.TrimSpace part ∧ grammarToken k)
  ∧ (∀ c, In c (list_ascii_of_string k) → grammarChar c = false →
          k ∉ dynDropHdrs src)
  ∧ (∀ dst, ∃ dst', copyHeaders dst src dst').
Proof.
  assert (k ∈ dynDropHdrs src
          ↔ ∃ vals v part, src !! "Connection" = Some vals ∧ v ∈ vals
                           ∧ part ∈ strings.Split v ","
                           ∧ k = strings.TrimSpace part ∧ grammarToken k) as Hiff.
  { unfold dynDropHdrs. change connectionHeader with "Connection".
    destruct (src !! "Connection") as [vals|] eqn:Hc.
    - rewrite dynDrop_values. split.
      + intros [[]%not_elem_of_empty | (v & part & ? & ? & ? & Hm)].
        apply MatchString_grammarToken in Hm. by exists vals, v, part.
      + intros (vals' & v & part & [= <-] & ? & ? & ? & Hm). right.
        apply MatchString_grammarToken in Hm. by exists v, part.
    - split; [by intros []%not_elem_of_empty | by intros (? & ? & ? & ? & _)]. }
  split; [exact Hiff |]. split.
  - intros c Hin Hc (vals & v & part & _ & _ & _ & _ & _ & Hk)%Hiff.
    rewrite List.Forall_forall in Hk. specialize (Hk c Hin). congruence.
  - intros dst. eexists. by exists (map_to_list src).
Qed.

(** The document's example: a piece with a space inside is left out, the
    pieces around it are not. *)
Example dynDropHdrs_bad_token :
  dynDropHdrs {[ "Connection" := ["close, bad token ,X-Foo"; "Keep-Alive"] ]}
  = {[ "close"; "X-Foo"; "Keep-Alive" ]}
  ∧ (processConnectionHdr ∅ "close, bad token ,X-Foo").2 = ["bad token"].
Proof. split; [by vm_compute | reflexivity]. Qed.

(** ** The copying loop *)

Lemma appendValues_app old vs ws :
  appendValues (appendValues old vs) ws = appendValues old (vs ++ ws).
Proof.
  destruct vs as [|v vs]; [done |]. destruct ws as [|w ws]; simpl.
  - by rewrite app_nil_r.
  - by rewrite <- app_assoc.
Qed.

Lemma Add_lookup (h : gmap string (list string)) (key value name : string) :
  Header.Add h key value !! name
  = if decide (textproto.CanonicalMIMEHeaderKey key = name)
    then appendValues (h !! name) [value] else h !! name.
Proof.
  unfold Header.Add, Header.values. case_decide as Hk.
  - subst name. by rewrite lookup_insert_eq.
  - by rewrite lookup_insert_ne.
Qed.

Lemma Add_all_lookup (h : gmap string (list string)) (key name : string)
    (vals : list string) :
  foldl (λ d v, Header.Add d key v) h vals !! name
  = if decide (textproto.CanonicalMIMEHeaderKey key = name)
    then appendValues (h !! name) vals else h !! name.
Proof.
  revert h. induction vals as [|v vals IH]; intros h; simpl.
  - by case_decide.
  - rewrite IH, Add_lookup. case_decide; [| done].
    by rewrite appendValues_app.
Qed.

Lemma copyField_lookup dyn (dst : gmap string (list string)) field name :
  copyField dyn dst field !! name
  = appendValues (dst !! name)
      (if decide (keptAs dyn name field) then field.2 else []).
Proof.
  unfold copyField. destruct (dropped dyn field.1) eqn:Hd.
  - rewrite decide_False; [done | intros [? _]; congruence].
  - rewrite Add_all_lookup. case_decide.
    + by rewrite decide_True.
    + rewrite decide_False; [done | by intros [_ ?]].
Qed.

Lemma copyFields_lookup dyn (dst : gmap string (list string)) fields name :
  copyFields dyn dst fields !! name
  = appendValues (dst !! name)
      (concat (snd <$> filter (keptAs dyn name) fields)).
Proof.
  unfold copyFields. revert dst.
  induction fields as [|field fields IH]; intros dst; simpl; [done |].
  rewrite IH, copyField_lookup, appendValues_app, filter_cons.
  by case_decide.
Qed.

Lemma values_appendValues (h h' : gmap string (list string)) name vs :
  h' !! name = appendValues (h !! name) vs →
  Header.values h' name = (Header.values h name ++ vs)%list.
Proof.
  unfold Header.values. intros ->. destruct vs; simpl; [| done].
  by rewrite app_nil_r.
Qed.

Lemma dropped_false dyn k :
  (dropped dyn k = false) ↔ (k ∉ hopByHopHeaders) ∧ (k ∉ dyn).
Proof.
  unfold dropped. rewrite orb_false_iff. by rewrite !bool_decide_eq_false.
Qed.

(** ** C1: what [copyHeaders] copies *)

(** C1. For every destination, source and result of [copyHeaders]: there is
    an order of the fields of the source such that, for every name, the
    result holds under that name the destination's values followed by the
    values of the source's fields that are in neither the static nor the
    dynamic set and whose canonical name it is, field after field, each
    field's values in their order; a name that gets no value is left as it
    was.  So every field in neither set has all its values appended, in
    order, under its canonical name, and a name that only fields of the two
    sets canonicalise to is left as it was: a field in either set gives the
    result nothing. *)
Theorem copyHeaders_copies_kept_fields (dst src dst' : gmap string (list string)) :
  copyHeaders dst src dst' →
  ∃ fields,
    fields ≡ₚ map_to_list src
    ∧ (∀ name,
         dst' !! name
         = appendValues (dst !! name)
             (concat (snd <$> filter (keptAs (dynDropHdrs src) name) fields)))
    ∧ (∀ k vals,
         src !! k = Some vals →
         k ∉ hopByHopHeaders → k ∉ dynDropHdrs src →
         ∃ before after,
           Header.values dst' (textproto.CanonicalMIMEHeaderKey k)
           = (Header.values dst (textproto.CanonicalMIMEHeaderKey k)
              ++ before ++ vals ++ after)%list)
    ∧ (∀ name,
         (∀ k, is_Some (src !! k) →
               textproto.CanonicalMIMEHeaderKey k = name →
               k ∈ hopByHopHeaders ∨ k ∈ dynDropHdrs src) →
         dst' !! name = dst !! name).
Proof.
  intros (fields & Hperm & ->). exists fields.
  split; [done |]. split; [| split].
  - intros name. apply copyFields_lookup.
  - intros k vals Hk Hstatic Hdyn.
    set (name := textproto.CanonicalMIMEHeaderKey k).
    assert ((k, vals) ∈ filter (keptAs (dynDropHdrs src) name) fields) as Hin.
    { apply list_elem_of_filter. split.
      - split; [by apply dropped_false | done].
      - rewrite Hperm. by apply elem_of_map_to_list. }
    apply list_elem_of_split in Hin as (l1 & l2 & Hsplit).
    exists (concat (snd <$> l1)), (concat (snd <$> l2)).
    rewrite (values_appendValues dst _ name _ (copyFields_lookup _ _ _ _)).
    rewrite Hsplit, fmap_app, concat_app. done.
  - intros name Hall. rewrite copyFields_lookup.
    assert (filter (keptAs (dynDropHdrs src) name) fields = []) as ->; [| done].
    destruct (filter _ fields) as [|[k vals] rest] eqn:Hf; [done |].
    assert ((k, vals) ∈ filter (keptAs (dynDropHdrs src) name) fields) as Hin
      by (rewrite Hf; apply elem_of_cons; by left).
    apply list_elem_of_filter in Hin as [[Hkept Hname] Hin].
    rewrite Hperm in Hin. apply elem_of_map_to_list in Hin.
    apply dropped_false in Hkept as [? ?]. simpl in *.
    destruct (Hall k) as [? | ?]; done.
Qed.

Lemma copyHeaders_copies_kept_fields_witness :
  copyHeaders ∅ exampleSource exampleCopy
  ∧ (∃ before after,
       Header.values exampleCopy "Accept"
       = ([] ++ before ++ ["text/html"; "text/plain"] ++ after)%list)
  ∧ exampleCopy !! "X-Foo" = None.
Proof.
  assert (copyHeaders ∅ exampleSource exampleCopy) as Hcopy.
  { exists (map_to_list exampleSource). split; [reflexivity | by vm_compute]. }
  split; [exact Hcopy |].
  destruct (copyHeaders_copies_kept_fields _ _ _ Hcopy)
    as (fields & _ & _ & Hkept & Hdropped).
  split.
  - apply (Hkept "Accept" ["text/html"; "text/plain"]).
    + reflexivity.
    + apply (bool_decide_unpack _). by vm_compute.
    + apply (bool_decide_unpack _). by vm_compute.
  - reflexivity.
Defined.


(** ** The handlers, call by call *)

(** Unfolds a handler down to its log, one case per outcome of the calls
    that can fail. *)
Ltac handler_cases env :=
  destruct env as [parseAddr range rh [bodyRead readErr] dialErr tokenErr
                   newErr writeErr response [written copyErr] hijackErr
                   ackErr [up down]];
  destruct dialErr, tokenErr, newErr, writeErr, response, copyErr, hijackErr,
    ackErr;
  cbv [run processRequest handleConnect defer mbind Prog_bind mret Prog_ret
       getConn logRequest perform return_ readAll dial writeTarget newRequest
       writeRequest readResponse copyBody hijack writeAck relayed ParseAddr
       mapRange respHeader fst snd];
  cbn [app].

(** ** C2: the acknowledgment of a tunnel *)

(** C2. In the CONNECT path, once the client connection is hijacked, what
    the handler has written on the raw client connection when the relay
    starts, and in any case before it returns without a relay, is the one
    string ["HTTP/1.0 200 Connection established\r\n\r\n"], 39 bytes that end
    in CR LF CR LF; nothing is written on it before the hijack; and when the
    write succeeds the relay is the very next call. *)
Theorem connect_acknowledgment (h : HTTPProxyHandler) (env : Env) (req : Request) :
  dial env = None → writeTarget env = None → hijack env = None →
  clientConnWrites (callsBefore isRelay (run (handleConnect h env req)).2)
  = [connectionEstablished]
  ∧ clientConnWrites (callsBefore isHijack (run (handleConnect h env req)).2) = []
  ∧ (writeAck env = None →
     ∃ before after,
       (run (handleConnect h env req)).2
       = (before ++ [HijackConnection; ClientConnWrite connectionEstablished;
                     Relay (relayed env).1 (relayed env).2] ++ after)%list)
  ∧ code <$> list_ascii_of_string connectionEstablished
    = [72; 84; 84; 80; 47; 49; 46; 48; 32; 50; 48; 48; 32; 67; 111; 110; 110;
       101; 99; 116; 105; 111; 110; 32; 101; 115; 116; 97; 98; 108; 105; 115;
       104; 101; 100; 13; 10; 13; 10]%N.
Proof.
  intros Hd Hwt Hhj. handler_cases env; cbn in Hd, Hwt, Hhj; try discriminate.
  all: repeat split; try done.
  all: intros _; by eexists [_; _; _; _], [_; _; _].
Qed.

Lemma connect_acknowledgment_witness :
  clientConnWrites
    (callsBefore isRelay (run (handleConnect exampleHandler quietEnv connectRequest)).2)
  = [connectionEstablished].
Proof.
  apply (connect_acknowledgment exampleHandler quietEnv connectRequest);
    reflexivity.
Defined.

(** ** C5: the destination token comes first, once *)

(** C5. In both paths, when the dial succeeds the first call that writes on
    the upstream connection is the write of the destination token, the
    encoding of the target, and no later call writes a token; when the dial
    fails nothing is written upstream. *)
Theorem destination_token_first_and_once (h : HTTPProxyHandler) (env : Env)
    (req : Request) :
  (dial env = None →
   (∃ rest,
      List.filter writesUpstream (run (processRequest h env req)).2
      = RcWrite (ParseAddr env (targetHost (Host req))) :: rest
      ∧ ∀ p, RcWrite p ∉ rest)
   ∧ (∃ rest,
        List.filter writesUpstream (run (handleConnect h env req)).2
        = RcWrite (ParseAddr env (URLHost req)) :: rest
        ∧ ∀ p, RcWrite p ∉ rest))
  ∧ (dial env ≠ None →
     List.filter writesUpstream (run (processRequest h env req)).2 = []
     ∧ List.filter writesUpstream (run (handleConnect h env req)).2 = []).
Proof.
  split; intros Hd.
  - split; handler_cases env; cbn in Hd; try discriminate.
    all: eexists; split; [reflexivity |].
    all: intros p Hin; repeat (apply elem_of_cons in Hin as [Hin | Hin];
           [discriminate Hin |]); by apply elem_of_nil in Hin.
  - split; handler_cases env; cbn in Hd; done.
Qed.

Lemma destination_token_first_and_once_witness :
  ∃ rest,
    List.filter writesUpstream
      (run (handleConnect exampleHandler quietEnv connectRequest)).2
    = RcWrite "example.com:443" :: rest
    ∧ ∀ p, RcWrite p ∉ rest.
Proof.
  apply (destination_token_first_and_once exampleHandler quietEnv connectRequest).
  reflexivity.
Defined.

(** ** C4: the failures of the plain path *)

(** What the plain path does on the failures that it reports: a failed
    dial, request construction, request write or response read writes status
    500 and returns the error; a failed copy of the body returns the error
    after the upstream's status. *)
Lemma processRequest_reported_failures (h : HTTPProxyHandler) (env : Env)
    (req : Request) (e : error) :
  (dial env = Some e
   ∨ dial env = None ∧ writeTarget env = None
     ∧ (newRequest env = Some e
        ∨ newRequest env = None
          ∧ (writeRequest env = Some e
             ∨ writeRequest env = None ∧ readResponse env = inl e))) →
  (run (processRequest h env req)).1 = Some e
  ∧ List.filter usesResponse (run (processRequest h env req)).2
    = [RespWriteHeader StatusInternalServerError].
Proof.
  intros Hfail. handler_cases env; cbn in Hfail.
  all: repeat match goal with
         | H : _ ∨ _ |- _ => destruct H
         | H : _ ∧ _ |- _ => destruct H
         end; try discriminate.
  all: split; [congruence | reflexivity].
Qed.

(** C4, at the input where it fails.  When the write of the destination token
    fails, the plain path returns the error and makes no call at all on the
    client response: no status 500 is written, unlike on the failures
    around it. *)
Theorem processRequest_token_write_failure (h : HTTPProxyHandler) (env : Env)
    (req : Request) (e : error) :
  dial env = None → writeTarget env = Some e →
  (run (processRequest h env req)).1 = Some e
  ∧ List.filter usesResponse (run (processRequest h env req)).2 = [].
Proof.
  intros Hd Hwt. handler_cases env; cbn in Hd, Hwt; try discriminate.
  all: split; [congruence | reflexivity].
Qed.

Lemma processRequest_token_write_failure_witness :
  run (processRequest exampleHandler tokenWriteFails getRequest)
  = (Some "write tcp: broken pipe",
     [ReadAllBody; Logf "proto:%s, method:%s, host:%s";
      NetDial "127.0.0.1:8488"; Logf "proxy %s <-> %s <-> %s";
      RcWrite "example.com:80"; Logf "failed to send target address: %v";
      RcClose; CloseBody])
  ∧ List.filter usesResponse
      (run (processRequest exampleHandler tokenWriteFails getRequest)).2 = [].
Proof.
  split; [reflexivity |].
  apply (processRequest_token_write_failure exampleHandler tokenWriteFails
           getRequest "write tcp: broken pipe"); reflexivity.
Defined.

(** ** C8: the response after the hijack *)

(** C8, at the input where it fails.  When the hijack succeeds and the write
    of the acknowledgment fails, the handler calls [resp.WriteHeader(500)] on
    the response it has hijacked. *)
Theorem handleConnect_ack_failure_uses_response (h : HTTPProxyHandler)
    (env : Env) (req : Request) (e : error) :
  dial env = None → writeTarget env = None → hijack env = None →
  writeAck env = Some e →
  List.filter usesResponse
    (callsAfter isHijack (run (handleConnect h env req)).2)
  = [RespWriteHeader StatusInternalServerError].
Proof.
  intros Hd Hwt Hhj Hwa.
  handler_cases env; cbn in Hd, Hwt, Hhj, Hwa; try discriminate.
  all: reflexivity.
Qed.

Lemma handleConnect_ack_failure_uses_response_witness :
  callsAfter isHijack
    (run (handleConnect exampleHandler ackWriteFails connectRequest)).2
  = [ClientConnWrite connectionEstablished;
     RespWriteHeader StatusInternalServerError;
     ClientConnClose; RcClose; CloseBody]
  ∧ List.filter usesResponse
      (callsAfter isHijack
         (run (handleConnect exampleHandler ackWriteFails connectRequest)).2)
    = [RespWriteHeader StatusInternalServerError].
Proof.
  split; [reflexivity |].
  apply (handleConnect_ack_failure_uses_response exampleHandler ackWriteFails
           connectRequest "write tcp: connection reset by peer"); reflexivity.
Defined.

(** On every other path the response is left alone once it is hijacked. *)
Lemma handleConnect_response_left_alone (h : HTTPProxyHandler) (env : Env)
    (req : Request) :
  hijack env = None → writeAck env = None →
  List.filter usesResponse
    (callsAfter isHijack (run (handleConnect h env req)).2) = [].
Proof.
  intros Hhj Hwa. handler_cases env; cbn in Hhj, Hwa; try discriminate.
  all: reflexivity.
Qed.

(** ** C10: the error of the body read *)

(** C10. In the plain path the error of [ioutil.ReadAll] changes nothing: the
    handler returns the same value and makes the same calls as when the read
    succeeds with the same bytes; every request it sends upstream carries
    the bytes that were read; and when the calls before it succeed the
    request is sent. *)
Theorem body_read_error_ignored (h : HTTPProxyHandler) (env : Env)
    (req : Request) (body : string) (e : error) :
  run (processRequest h (withReadAll env (body, Some e)) req)
  = run (processRequest h (withReadAll env (body, None)) req)
  ∧ (∀ r, r ∈ requestsSent
              (run (processRequest h (withReadAll env (body, Some e)) req)).2 →
          proxyBody r = body)
  ∧ (dial env = None → writeTarget env = None → newRequest env = None →
     ∃ r, requestsSent
            (run (processRequest h (withReadAll env (body, Some e)) req)).2 = [r]
          ∧ proxyBody r = body).
Proof.
  split; [reflexivity |]. split.
  - intros r. unfold withReadAll. handler_cases env; cbn.
    all: intros Hin; repeat (apply elem_of_cons in Hin as [-> | Hin]; [done |]);
      by apply elem_of_nil in Hin.
  - intros Hd Hwt Hnr. unfold withReadAll.
    handler_cases env; cbn in Hd, Hwt, Hnr; try discriminate.
    all: by eexists.
Qed.

Lemma body_read_error_ignored_witness :
  ∃ r, requestsSent
         (run (processRequest exampleHandler
                 (withReadAll quietEnv ("par", Some "unexpected EOF"))
                 getRequest)).2 = [r]
       ∧ proxyBody r = "par".
Proof.
  apply (body_read_error_ignored exampleHandler quietEnv getRequest "par"
           "unexpected EOF"); reflexivity.
Defined.

(** ** C7: the configured user agent *)

Lemma values_Add (hdr : gmap string (list string)) (key value : string) :
  Header.values (Header.Add hdr key value) (textproto.CanonicalMIMEHeaderKey key)
  = (Header.values hdr (textproto.CanonicalMIMEHeaderKey key) ++ [value])%list.
Proof. unfold Header.Add, Header.values at 1. by rewrite lookup_insert_eq. Qed.

(** The header of every request the plain path sends, for a configured user
    agent. *)
Lemma processRequest_header (h : HTTPProxyHandler) (env : Env) (req : Request)
    (r : ProxyRequest) :
  UserAgent h ≠ "" →
  r ∈ requestsSent (run (processRequest h env req)).2 →
  proxyHeader r
  = Header.Add (copyHeadersIn env ∅ (ReqHeader req)) "User-Agent" (UserAgent h).
Proof.
  intros Hua%String.eqb_neq. handler_cases env; cbn [requestsSent].
  all: intros Hin; repeat (apply elem_of_cons in Hin as [-> | Hin];
         [cbn [proxyHeader]; by rewrite Hua |]); by apply elem_of_nil in Hin.
Qed.

(** C7 as the document has it, refuted: with the user agent ["Fixed/1.0"]
    configured and a client that sends [User-Agent: curl/8.0], the request
    sent upstream does not have the configured value as its user agent. *)
Lemma user_agent_not_overwritten :
  ¬ ∀ (h : HTTPProxyHandler) (env : Env) (req : Request) (r : ProxyRequest),
      UserAgent h ≠ "" →
      r ∈ requestsSent (run (processRequest h env req)).2 →
      Header.values (proxyHeader r) "User-Agent" = [UserAgent h].
Proof.
  intros Hclaim.
  specialize (Hclaim fixedAgentHandler quietEnv getRequest
    {| proxyMethod := "GET"; proxyURL := "http://example.com/"; proxyBody := "";
       proxyHeader := {[ "User-Agent" := ["curl/8.0"; "Fixed/1.0"] ]} |}).
  assert (["curl/8.0"; "Fixed/1.0"] = ["Fixed/1.0"]) as Habsurd; [| discriminate].
  apply Hclaim; [done |]. vm_compute. apply list_elem_of_here.
Qed.

(** The same run, read as the wire reads it: [Request.Write] sends the value
    [Header.Get] gives, the first one, which is the client's. *)
Example user_agent_sent_is_the_clients :
  (λ r, (Header.values (proxyHeader r) "User-Agent",
         Header.Get (proxyHeader r) "User-Agent"))
    <$> requestsSent (run (processRequest fixedAgentHandler quietEnv getRequest)).2
  = [(["curl/8.0"; "Fixed/1.0"], "curl/8.0")].
Proof. by vm_compute. Qed.

(** C7, amended.  When a user agent is configured, the header of the request
    sent upstream is the sanitized copy of the client's header with the
    configured value added by [Header.Add]: the [User-Agent] values are the
    ones copied from the client, which are the values of the client's fields
    that are not dropped and are named [User-Agent] once canonical, followed
    by the configured value.  The configured value is the first, and so the
    one [Header.Get] gives, exactly when nothing was copied. *)
Theorem user_agent_appended (h : HTTPProxyHandler) (env : Env) (req : Request)
    (r : ProxyRequest) :
  UserAgent h ≠ "" →
  r ∈ requestsSent (run (processRequest h env req)).2 →
  Header.values (proxyHeader r) "User-Agent"
  = (concat (snd <$> filter (keptAs (dynDropHdrs (ReqHeader req)) "User-Agent")
                       (mapRange env (ReqHeader req)))
     ++ [UserAgent h])%list
  ∧ last (Header.values (proxyHeader r) "User-Agent") = Some (UserAgent h)
  ∧ Header.Get (proxyHeader r) "User-Agent"
    = hd (UserAgent h)
        (concat (snd <$> filter (keptAs (dynDropHdrs (ReqHeader req)) "User-Agent")
                           (mapRange env (ReqHeader req)))).
Proof.
  intros Hua Hin. rewrite (processRequest_header h env req r Hua Hin).
  pose proof (values_Add (copyHeadersIn env ∅ (ReqHeader req)) "User-Agent"
                (UserAgent h)) as Hvalues.
  change (textproto.CanonicalMIMEHeaderKey "User-Agent") with "User-Agent"
    in Hvalues.
  unfold copyHeadersIn in *.
  rewrite (values_appendValues ∅ _ "User-Agent" _ (copyFields_lookup _ _ _ _))
    in Hvalues.
  change (Header.values ∅ "User-Agent") with (@nil string) in Hvalues.
  cbn [app] in Hvalues.
  unfold Header.Get.
  change (textproto.CanonicalMIMEHeaderKey "User-Agent") with "User-Agent".
  rewrite Hvalues. split; [done |]. split.
  - by rewrite last_snoc.
  - by destruct (concat _).
Qed.

Lemma user_agent_appended_witness :
  Header.values {[ "User-Agent" := ["curl/8.0"; "Fixed/1.0"] ]} "User-Agent"
  = (concat (snd <$> filter (keptAs (dynDropHdrs (ReqHeader getRequest)) "User-Agent")
                       (mapRange quietEnv (ReqHeader getRequest)))
     ++ ["Fixed/1.0"])%list.
Proof.
  refine (proj1 (user_agent_appended fixedAgentHandler quietEnv getRequest
           {| proxyMethod := "GET"; proxyURL := "http://example.com/";
              proxyBody := "";
              proxyHeader := {[ "User-Agent" := ["curl/8.0"; "Fixed/1.0"] ]} |}
           _ _)).
  - done.
  - vm_compute. apply list_elem_of_here.
Defined.

(** ** C9: the relay *)

Lemma transferStep_started g n g' n' :
  transferStep g n g' n' → started g ∧ started g'.
Proof. by intros []. Qed.

Lemma transferStep_pending g n g' n' :
  transferStep g n g' n' → (n' - pending g' = n - pending g)%Z.
Proof. intros []; simpl; lia. Qed.

Lemma relayInv_step (s s' : relayState) :
  relayInv s → relayStep s s' → relayInv s'.
Proof.
  unfold relayInv. intros Hinv Hstep.
  destruct Hstep as [s Hpc | s Hpc | s Hpc | s Hpc Hwg | s g n Ht | s g n Ht];
    cbn [pc wg upstreamTransfer clientTransfer].
  - rewrite Hpc in Hinv. destruct Hinv as (-> & -> & ->). done.
  - rewrite Hpc in Hinv. destruct Hinv as (-> & _ & ->). done.
  - rewrite Hpc in Hinv. destruct Hinv as (-> & ? & _).
    change (pending (Copying "")) with 1%Z. done.
  - rewrite Hpc in Hinv. destruct Hinv as (Hcount & Hup & Hdown).
    rewrite Hwg in Hcount |- *.
    destruct (upstreamTransfer s), (clientTransfer s); simpl in Hcount;
      done || lia.
  - pose proof (transferStep_started _ _ _ _ Ht) as [Hs Hs'].
    pose proof (transferStep_pending _ _ _ _ Ht) as Hp.
    destruct (pc s); destruct Hinv as (Hcount & Hrest).
    + by destruct Hrest as [Hup _].
    + by destruct Hrest as [Hup _].
    + destruct Hrest as [_ Hdown]. split; [lia | done].
    + destruct Hrest as [_ Hdown]. split; [lia | done].
    + destruct Hrest as (Hup & _). rewrite Hup in Ht. inversion Ht.
  - pose proof (transferStep_started _ _ _ _ Ht) as [Hs Hs'].
    pose proof (transferStep_pending _ _ _ _ Ht) as Hp.
    destruct (pc s); destruct Hinv as (Hcount & Hrest).
    + by destruct Hrest as [_ Hdown].
    + by destruct Hrest as [_ Hdown].
    + by destruct Hrest as [_ Hdown].
    + destruct Hrest as [Hup _]. split; [lia | done].
    + destruct Hrest as (_ & Hdown & _). rewrite Hdown in Ht. inversion Ht.
Qed.

Lemma relayInv_reachable (s : relayState) : relayReachable s → relayInv s.
Proof.
  unfold relayReachable. intros Hreach.
  apply (rtc_ind_r (R := relayStep) (λ s, relayInv s) relayInit);
    [| | exact Hreach].
  - by cbv.
  - intros ? ? _ ? ?. by eapply relayInv_step.
Qed.

(** The relay never gets stuck before the handler returns: a transfer that
    copies can return, one that has returned can tell the wait group, and
    when both have the wait is over. *)
Lemma relay_no_deadlock (s : relayState) :
  relayReachable s → (∃ result, pc s = AtReturn result) ∨ ∃ s', relayStep s s'.
Proof.
  intros Hinv%relayInv_reachable. unfold relayInv in Hinv.
  destruct (pc s) eqn:Hpc.
  - right. eexists. by apply step_add.
  - right. eexists. by apply step_go_upstream.
  - right. eexists. by apply step_go_client.
  - right. destruct Hinv as (Hcount & Hup & Hdown).
    destruct (upstreamTransfer s) as [| copied | copied err |] eqn:Eup; [done | | |].
    + eexists. apply step_upstream. rewrite Eup. apply (copy_returns _ None).
    + eexists. apply step_upstream. rewrite Eup. apply wg_done.
    + destruct (clientTransfer s) as [| copied | copied err |] eqn:Edown; [done | | |].
      * eexists. apply step_client. rewrite Edown. apply (copy_returns _ None).
      * eexists. apply step_client. rewrite Edown. apply wg_done.
      * eexists. by apply step_wait.
  - left. by eexists.
Qed.


(** One interleaving: the client's side is reset while the upstream transfer
    copies, the other transfer ends at the end of its stream, and the
    handler returns. *)
Lemma relayDone_reachable : relayReachable relayDone.
Proof.
  unfold relayReachable, relayDone, relayInit.
  eapply rtc_l; [by apply step_add | cbn].
  eapply rtc_l; [by apply step_go_upstream | cbn].
  eapply rtc_l; [by apply step_go_client | cbn].
  eapply rtc_l; [apply step_upstream, (copy_chunk _ "GET / HTTP/1.1") | cbn].
  eapply rtc_l;
    [apply step_upstream, (copy_returns _ (Some "connection reset by peer")) | cbn].
  eapply rtc_l; [apply step_client, (copy_returns _ None) | cbn].
  eapply rtc_l; [apply step_upstream, wg_done | cbn].
  eapply rtc_l; [apply step_client, wg_done | cbn].
  eapply rtc_l; [by apply step_wait | cbn].
  apply rtc_refl.
Defined.


(** * More of what the code does *)

(** ** [ServeHTTP] *)

(** [ServeHTTP] sends a request whose method is ["CONNECT"], byte for byte,
    to [handleConnect] and every other one to [processRequest]: serving a
    CONNECT never reads the request body, sends a request upstream, reads a
    response or copies a body, and serving any other method never hijacks
    the client connection, writes on it raw or starts a relay. *)
Theorem ServeHTTP_dispatch (h : HTTPProxyHandler) (env : Env) (req : Request) :
  (Method req = "CONNECT" →
   List.filter plainOnly (ServeHTTP h env req) = [])
  ∧ (Method req ≠ "CONNECT" →
     List.filter tunnelOnly (ServeHTTP h env req) = []).
Proof.
  unfold ServeHTTP. split.
  - intros ->%String.eqb_eq. handler_cases env; reflexivity.
  - intros ->%String.eqb_neq. handler_cases env; reflexivity.
Qed.

Lemma ServeHTTP_dispatch_witness :
  List.filter plainOnly (ServeHTTP exampleHandler quietEnv connectRequest) = []
  ∧ List.filter tunnelOnly (ServeHTTP exampleHandler quietEnv getRequest) = [].
Proof.
  split.
  - apply (ServeHTTP_dispatch exampleHandler quietEnv connectRequest).
    reflexivity.
  - apply (ServeHTTP_dispatch exampleHandler quietEnv getRequest).
    discriminate.
Defined.

(** ** What the handlers return *)

(** [handleConnect] returns the error of the first call that fails, in the
    order dial, token write, hijack, acknowledgment write, and [nil] when
    none fails: what the relay copies or fails to copy is never returned. *)
Theorem handleConnect_returns_first_failure (h : HTTPProxyHandler) (env : Env)
    (req : Request) :
  (run (handleConnect h env req)).1 = firstError (tunnelOutcomes env).
Proof. handler_cases env; reflexivity. Qed.

(** [processRequest] returns the error of the first call that fails, in the
    order dial, token write, request construction, request write, response
    read, body copy, and [nil] when none fails; the outcome of the body read
    is not among them. *)
Theorem processRequest_returns_first_failure (h : HTTPProxyHandler) (env : Env)
    (req : Request) :
  (run (processRequest h env req)).1 = firstError (plainOutcomes env).
Proof. handler_cases env; reflexivity. Qed.

(** [ServeHTTP] logs its error line exactly when one of the calls of the
    handler it chose fails, once and as its last call; the handlers never
    log that line themselves. *)
Theorem ServeHTTP_logs_failure (h : HTTPProxyHandler) (env : Env) (req : Request) :
  List.filter isErrorLine (ServeHTTP h env req)
  = match firstError (servedOutcomes env req) with
    | Some _ => [Logf "Error serving proxy relay:"]
    | None => []
    end
  ∧ (∀ e, firstError (servedOutcomes env req) = Some e →
          last (ServeHTTP h env req) = Some (Logf "Error serving proxy relay:")).
Proof.
  unfold ServeHTTP, servedOutcomes.
  destruct (String.eqb (Method req) "CONNECT").
  all: handler_cases env; split; try reflexivity; by intros ? [=].
Qed.

Lemma ServeHTTP_logs_failure_witness :
  last (ServeHTTP exampleHandler dialFails getRequest)
  = Some (Logf "Error serving proxy relay:").
Proof.
  pose proof (ServeHTTP_logs_failure exampleHandler dialFails getRequest)
    as [_ Hlast].
  apply (Hlast "dial tcp: connection refused"). reflexivity.
Defined.

(** ** One dial, to the configured server *)

(** Serving a request, of either kind, dials exactly once, and the address
    is the handler's server: the proxy never connects to the host the request
    names. *)
Theorem one_dial_to_the_server (h : HTTPProxyHandler) (env : Env) (req : Request) :
  List.filter isDial (ServeHTTP h env req) = [NetDial (server h)].
Proof.
  unfold ServeHTTP. destruct (String.eqb (Method req) "CONNECT").
  all: handler_cases env; reflexivity.
Qed.

(** ** What is opened is closed *)

(** In both handlers, when the dial succeeds the upstream connection is
    closed exactly once, after every other call on it, and then the request
    body is closed, exactly once and last; when the dial fails there is no
    call at all on an upstream connection and the request body is still
    closed last. *)
Theorem upstream_and_body_closed (h : HTTPProxyHandler) (env : Env) (req : Request)
    (handler : HTTPProxyHandler → Env → Request → Prog unit) :
  handler = processRequest ∨ handler = handleConnect →
  (dial env = None →
   ∃ before,
     (run (handler h env req)).2 = (before ++ [RcClose; CloseBody])%list
     ∧ List.filter (λ c, closesUpstream c || closesBody c) before = [])
  ∧ (dial env ≠ None →
     List.filter usesUpstream (run (handler h env req)).2 = []
     ∧ ∃ before,
         (run (handler h env req)).2 = (before ++ [CloseBody])%list
         ∧ List.filter closesBody before = []).
Proof.
  intros [-> | ->]; split; intros Hd.
  all: handler_cases env; cbn in Hd; try done.
  all: try (split; [reflexivity |]).
  all: try (by eexists [_]).
  all: try (by eexists [_; _]).
  all: try (by eexists [_; _; _]).
  all: try (by eexists [_; _; _; _]).
  all: try (by eexists [_; _; _; _; _]).
  all: try (by eexists [_; _; _; _; _; _]).
  all: try (by eexists [_; _; _; _; _; _; _]).
  all: try (by eexists [_; _; _; _; _; _; _; _]).
  all: try (by eexists [_; _; _; _; _; _; _; _; _]).
  all: try (by eexists [_; _; _; _; _; _; _; _; _; _]).
  all: try (by eexists [_; _; _; _; _; _; _; _; _; _; _]).
Qed.

Lemma upstream_and_body_closed_witness :
  ∃ before,
    (run (processRequest exampleHandler quietEnv getRequest)).2
    = (before ++ [RcClose; CloseBody])%list
    ∧ List.filter (λ c, closesUpstream c || closesBody c) before = [].
Proof.
  apply (upstream_and_body_closed exampleHandler quietEnv getRequest
           processRequest); [by left | reflexivity].
Defined.

(** In [handleConnect], once the hijack has succeeded the raw client
    connection is closed exactly once, after every other call on it and
    before the upstream connection is closed, whether or not the
    acknowledgment could be written; when the hijack is not reached or fails
    no call is made on a raw client connection. *)
Theorem client_connection_closed (h : HTTPProxyHandler) (env : Env)
    (req : Request) :
  (dial env = None → writeTarget env = None → hijack env = None →
   ∃ before,
     (run (handleConnect h env req)).2
     = (before ++ [ClientConnClose; RcClose; CloseBody])%list
     ∧ List.filter closesClientConn before = [])
  ∧ (firstError [dial env; writeTarget env; hijack env] ≠ None →
     List.filter usesClientConn (run (handleConnect h env req)).2 = []).
Proof.
  split.
  - intros Hd Hwt Hhj. handler_cases env; cbn in Hd, Hwt, Hhj; try done.
    all: by eexists [_; _; _; _; _; _; _].
  - intros Hfail. handler_cases env; cbn in Hfail; done.
Qed.

Lemma client_connection_closed_witness :
  ∃ before,
    (run (handleConnect exampleHandler ackWriteFails connectRequest)).2
    = (before ++ [ClientConnClose; RcClose; CloseBody])%list
    ∧ List.filter closesClientConn before = [].
Proof.
  apply (client_connection_closed exampleHandler ackWriteFails connectRequest);
    reflexivity.
Defined.

(** ** The order of a tunnel *)

(** [handleConnect] tries the hijack exactly when the dial and the token
    write have succeeded, writes on the raw client connection exactly when
    the hijack has succeeded too, and starts the relay exactly when the
    acknowledgment has been written as well: the client is never told that a
    tunnel is established before the upstream connection has the
    destination token. *)
Theorem tunnel_steps_in_order (h : HTTPProxyHandler) (env : Env) (req : Request) :
  (existsb isHijack (run (handleConnect h env req)).2 = true
   ↔ firstError [dial env; writeTarget env] = None)
  ∧ (clientConnWrites (run (handleConnect h env req)).2 ≠ []
     ↔ firstError [dial env; writeTarget env; hijack env] = None)
  ∧ (existsb isRelay (run (handleConnect h env req)).2 = true
     ↔ firstError (tunnelOutcomes env) = None).
Proof. handler_cases env; cbn; repeat split; done. Qed.

(** ** The status line and the response of the plain path *)

(** Serving a request writes at most one status line through the response. *)
Theorem at_most_one_status_line (h : HTTPProxyHandler) (env : Env) (req : Request) :
  (length (List.filter isStatusLine (ServeHTTP h env req)) ≤ 1)%nat.
Proof.
  unfold ServeHTTP. destruct (String.eqb (Method req) "CONNECT").
  all: handler_cases env; cbn; lia.
Qed.

(** When the calls up to the response read succeed, [processRequest] uses
    the client response three times, in this order: it fills the header with
    the sanitized copy of the upstream response's header, writes the
    upstream's status code, and copies the body.  The upstream body is then
    closed and the outcome of the copy is what the function returns, an
    error of the copy included. *)
Theorem upstream_response_relayed (h : HTTPProxyHandler) (env : Env)
    (req : Request) (proxyResp : Response) :
  dial env = None → writeTarget env = None → newRequest env = None →
  writeRequest env = None → readResponse env = inr proxyResp →
  List.filter usesResponse (run (processRequest h env req)).2
  = [RespHeaderCopy (copyHeadersIn env (respHeader env) (RespHeader proxyResp));
     RespWriteHeader (StatusCode proxyResp);
     RespCopyBody (copyBody env).1]
  ∧ callsAfter (λ c, match c with RespCopyBody _ => true | _ => false end)
      (run (processRequest h env req)).2
    = [CloseResponseBody; RcClose; CloseBody]
  ∧ (run (processRequest h env req)).1 = (copyBody env).2.
Proof.
  intros Hd Hwt Hnr Hwr Hrr.
  handler_cases env; cbn in Hd, Hwt, Hnr, Hwr, Hrr; try done.
  all: injection Hrr as ->; done.
Qed.

Lemma upstream_response_relayed_witness :
  List.filter usesResponse (run (processRequest exampleHandler notFoundEnv getRequest)).2
  = [RespHeaderCopy (copyHeadersIn notFoundEnv ∅ (RespHeader exampleResponse));
     RespWriteHeader 404; RespCopyBody "<html>"]
  ∧ callsAfter (λ c, match c with RespCopyBody _ => true | _ => false end)
      (run (processRequest exampleHandler notFoundEnv getRequest)).2
    = [CloseResponseBody; RcClose; CloseBody]
  ∧ (run (processRequest exampleHandler notFoundEnv getRequest)).1
    = Some "write: broken pipe".
Proof.
  apply (upstream_response_relayed exampleHandler notFoundEnv getRequest
           exampleResponse); reflexivity.
Defined.

(** ** The request sent upstream *)



(** ** The destination of the plain path *)

(** The destination [processRequest] hands to the encoder always holds a
    colon, and defaulting the port a second time changes nothing. *)
Theorem targetHost_has_port (host : string) :
  strings.Contains (targetHost host) ":" = true
  ∧ targetHost (targetHost host) = targetHost host.
Proof.
  assert (strings.Contains (targetHost host) ":" = true) as Hcolon.
  { unfold targetHost. destruct (strings.Contains host ":") eqn:Hc; [done |].
    apply Contains_spec. exists host, "80". reflexivity. }
  split; [exact Hcolon |].
  unfold targetHost at 1. by rewrite Hcolon.
Qed.

(** ** [processConnectionHdr] *)

(** [processConnectionHdr] only adds to the drop set it is given, and sorts
    every comma-separated piece of the value, once trimmed, into the drop
    set when it matches the token pattern and into the returned list when it
    does not: no piece is lost, and what is returned never matches. *)
Theorem processConnectionHdr_sorts_pieces (dropHdrs : gset string)
    (value : string) :
  dropHdrs ⊆ (processConnectionHdr dropHdrs value).1
  ∧ (∀ part, part ∈ strings.Split value "," →
       (tokenPattern.MatchString (strings.TrimSpace part) = true
        ∧ strings.TrimSpace part ∈ (processConnectionHdr dropHdrs value).1)
       ∨ (tokenPattern.MatchString (strings.TrimSpace part) = false
          ∧ strings.TrimSpace part ∈ (processConnectionHdr dropHdrs value).2))
  ∧ (∀ t, t ∈ (processConnectionHdr dropHdrs value).2 →
          tokenPattern.MatchString t = false).
Proof.
  assert (∀ t, t ∈ (processConnectionHdr dropHdrs value).2
               ↔ tokenPattern.MatchString t = false
                 ∧ ∃ part, part ∈ strings.Split value ","
                           ∧ t = strings.TrimSpace part) as Hbad.
  { intros t. rewrite processConnectionHdr_bad, list_elem_of_In, filter_In.
    rewrite <- list_elem_of_In, list_elem_of_fmap, negb_true_iff.
    split.
    - intros [(part & ? & ?) ?]. split; [done | by exists part].
    - intros [? (part & ? & ?)]. split; [by exists part | done]. }
  split; [| split].
  - intros k Hk. apply processConnectionHdr_drop. by left.
  - intros part Hpart.
    destruct (tokenPattern.MatchString (strings.TrimSpace part)) eqn:Hm.
    + left. split; [done |]. apply processConnectionHdr_drop. right.
      by exists part.
    + right. split; [done |]. apply Hbad. split; [done | by exists part].
  - intros t Ht. by apply Hbad in Ht as [? _].
Qed.

Lemma processConnectionHdr_sorts_pieces_witness :
  "close" ∈ (processConnectionHdr ∅ "close, bad token").1
  ∧ "bad token" ∈ (processConnectionHdr ∅ "close, bad token").2.
Proof.
  pose proof (processConnectionHdr_sorts_pieces ∅ "close, bad token")
    as (_ & Hsorted & _).
  split.
  - destruct (Hsorted "close") as [[_ Hin] | [Hm _]];
      [apply list_elem_of_here | exact Hin | by vm_compute in Hm].
  - destruct (Hsorted " bad token") as [[Hm _] | [_ Hin]];
      [apply list_elem_of_further, list_elem_of_here | by vm_compute in Hm
      | exact Hin].
Defined.

Lemma Split_append (a b : string) (sep : ascii) :
  strings.Split (a ++ String sep b) sep
  = (strings.Split a sep ++ strings.Split b sep)%list.
Proof.
  induction a as [|c a IH]; cbn [strings.Split].
  - change ("" ++ String sep b) with (String sep b). cbn [strings.Split].
    by rewrite Ascii.eqb_refl.
  - rewrite append_cons. cbn [strings.Split]. rewrite IH.
    destruct (Ascii.eqb c sep); [done |].
    by destruct (Split_cons a sep) as (p & ps & ->).
Qed.

(** The dynamic drop set depends on the values of the [Connection] header
    only through the set of them, whatever their order and their repeats;
    and a value [a,b] gives what the two values [a] and [b] give. *)
Theorem connection_values_as_a_set (src : gmap string (list string))
    (vals1 vals2 before after : list string) (a b : string) :
  ((∀ v, v ∈ vals1 ↔ v ∈ vals2) →
   dynDropHdrs (<["Connection" := vals1]> src)
   = dynDropHdrs (<["Connection" := vals2]> src))
  ∧ dynDropHdrs (<["Connection" := (before ++ [(a ++ "," ++ b)%string] ++ after)%list]> src)
    = dynDropHdrs (<["Connection" := (before ++ [a; b] ++ after)%list]> src).
Proof.
  unfold dynDropHdrs. change connectionHeader with "Connection".
  rewrite !lookup_insert_eq. split.
  - intros Hsame. apply set_eq. intros k. rewrite !dynDrop_values.
    split; intros [? | (v & part & Hv & ?)]; [by left | | by left |];
      right; exists v, part; (split; [by apply Hsame | done]).
  - apply set_eq. intros k. rewrite !dynDrop_values.
    split; intros [? | (v & part & Hv & Hpart & Hk)]; [by left | | by left |];
      right.
    + rewrite !elem_of_app, list_elem_of_singleton in Hv.
      destruct Hv as [Hv | [-> | Hv]].
      * exists v, part. rewrite !elem_of_app. by auto.
      * change (a ++ "," ++ b) with (a ++ String "," b) in Hpart.
        rewrite Split_append, elem_of_app in Hpart.
        destruct Hpart as [Hpart | Hpart].
        -- exists a, part. rewrite !elem_of_app, !elem_of_cons. by auto 6.
        -- exists b, part. rewrite !elem_of_app, !elem_of_cons. by auto 6.
      * exists v, part. rewrite !elem_of_app. by auto.
    + rewrite !elem_of_app, !elem_of_cons in Hv.
      destruct Hv as [Hv | [[-> | [-> | Hv]] | Hv]].
      * exists v, part. rewrite !elem_of_app. by auto.
      * exists (a ++ "," ++ b), part.
        rewrite !elem_of_app, list_elem_of_singleton.
        change (a ++ "," ++ b) with (a ++ String "," b).
        rewrite Split_append, elem_of_app. by auto 6.
      * exists (a ++ "," ++ b), part.
        rewrite !elem_of_app, list_elem_of_singleton.
        change (a ++ "," ++ b) with (a ++ String "," b).
        rewrite Split_append, elem_of_app. by auto 6.
      * by apply elem_of_nil in Hv.
      * exists v, part. rewrite !elem_of_app. by auto.
Qed.

Lemma connection_values_as_a_set_witness :
  dynDropHdrs (<["Connection" := ["X-Foo"; "close"; "X-Foo"]]> ∅)
  = dynDropHdrs (<["Connection" := ["close"; "X-Foo"]]> ∅).
Proof.
  apply (connection_values_as_a_set ∅ ["X-Foo"; "close"; "X-Foo"]
           ["close"; "X-Foo"] [] [] "" "").
  intros v. rewrite !elem_of_cons. tauto.
Defined.

(** ** [copyHeaders] on the headers net/http parses *)

Lemma NoDup_all_equal {A : Type} (l : list A) (a : A) :
  NoDup l → (∀ x, x ∈ l → x = a) → a ∈ l → l = [a].
Proof.
  intros Hnd Hall Hin. destruct l as [|x [|y l]].
  - by apply elem_of_nil in Hin.
  - by rewrite (Hall x (list_elem_of_here _ _)).
  - apply NoDup_cons in Hnd as [Hx _]. destruct Hx.
    rewrite (Hall x), (Hall y); [apply list_elem_of_here | |].
    + apply list_elem_of_further, list_elem_of_here.
    + apply list_elem_of_here.
Qed.

(** With canonical keys a name of the destination gets the values of the one
    field of that name, or nothing, wherever the field comes in the order of
    visit. *)
Lemma kept_fields_canonical (src : gmap string (list string))
    (fields : list (string * list string)) (name : string) :
  canonicalKeys src → fields ≡ₚ map_to_list src →
  concat (snd <$> filter (keptAs (dynDropHdrs src) name) fields)
  = fieldValues src name.
Proof.
  intros Hcanon Hperm. unfold fieldValues, Header.values.
  set (l := filter (keptAs (dynDropHdrs src) name) fields).
  assert (∀ x, x ∈ l → dropped (dynDropHdrs src) name = false
                       ∧ ∃ vals, src !! name = Some vals ∧ x = (name, vals))
    as Hl.
  { intros [k vals] [[Hkept Hname] Hin]%list_elem_of_filter. simpl in *.
    rewrite Hperm in Hin. apply elem_of_map_to_list in Hin.
    rewrite Hcanon in Hname by done. subst k. split; [done |]. by exists vals. }
  assert (NoDup l) as Hnd.
  { apply NoDup_filter. rewrite Hperm. apply NoDup_map_to_list. }
  destruct (dropped (dynDropHdrs src) name) eqn:Hd.
  - destruct l as [|x l']; [done |].
    destruct (Hl x (list_elem_of_here _ _)) as [? _]. done.
  - destruct (src !! name) as [vals|] eqn:Hsrc.
    + assert ((name, vals) ∈ l) as Hin.
      { apply list_elem_of_filter. split.
        - split; [done |]. apply Hcanon. by rewrite Hsrc.
        - rewrite Hperm. by apply elem_of_map_to_list. }
      rewrite (NoDup_all_equal l (name, vals) Hnd); [| | done].
      * simpl. by rewrite app_nil_r.
      * intros x (_ & vals' & [= <-] & ->)%Hl. done.
    + destruct l as [|x l']; [done |].
      destruct (Hl x (list_elem_of_here _ _)) as (_ & ? & ? & _). done.
Qed.

Lemma copyHeaders_canonical_lookup (dst src dst' : gmap string (list string))
    (name : string) :
  canonicalKeys src → copyHeaders dst src dst' →
  dst' !! name = appendValues (dst !! name) (fieldValues src name).
Proof.
  intros Hcanon (fields & Hperm & ->).
  by rewrite copyFields_lookup, kept_fields_canonical.
Qed.

Lemma dropped_name_untouched (dst src dst' : gmap string (list string))
    (name : string) :
  canonicalKeys src → copyHeaders dst src dst' →
  name ∈ hopByHopHeaders ∨ name ∈ dynDropHdrs src →
  dst' !! name = dst !! name.
Proof.
  intros Hcanon Hcopy Hdrop.
  rewrite (copyHeaders_canonical_lookup dst src dst' name Hcanon Hcopy).
  unfold fieldValues.
  assert (dropped (dynDropHdrs src) name = true) as ->; [| done].
  apply not_false_iff_true. intros [? ?]%dropped_false. tauto.
Qed.

(** When every key of the source is in canonical form, as in a header
    parsed by net/http, the result of [copyHeaders] does not depend on the
    order in which the runtime visits the map: under every name it holds the
    destination's values followed by the values of the source's field of
    that name if the name is in neither drop set, and the destination's
    entry untouched otherwise. *)
Theorem copyHeaders_canonical (dst src dst' : gmap string (list string)) :
  canonicalKeys src → copyHeaders dst src dst' →
  (∀ name, dst' !! name = appendValues (dst !! name) (fieldValues src name))
  ∧ (∀ dst'', copyHeaders dst src dst'' → dst'' = dst').
Proof.
  intros Hcanon Hcopy. split.
  - intros name. by apply copyHeaders_canonical_lookup.
  - intros dst'' Hcopy'. apply map_eq. intros name.
    rewrite (copyHeaders_canonical_lookup dst src dst'' name Hcanon Hcopy').
    by rewrite (copyHeaders_canonical_lookup dst src dst' name Hcanon Hcopy).
Qed.

Lemma canonicalKeys_exampleSource : canonicalKeys exampleSource.
Proof.
  intros k Hk. apply elem_of_dom in Hk.
  assert (k ∈ ({[ "Connection"; "X-Foo"; "Keep-Alive"; "Accept" ]} : gset string))
    as Hin by (revert Hk; by vm_compute).
  rewrite !elem_of_union, !elem_of_singleton in Hin.
  destruct Hin as [[[-> | ->] | ->] | ->]; reflexivity.
Defined.

Lemma exampleSource_copied : copyHeaders ∅ exampleSource exampleCopy.
Proof.
  exists (map_to_list exampleSource). split; [reflexivity | by vm_compute].
Defined.

Lemma copyHeaders_canonical_witness :
  exampleCopy !! "Accept"
  = appendValues ((∅ : gmap string (list string)) !! "Accept")
      (fieldValues exampleSource "Accept").
Proof.
  apply (copyHeaders_canonical ∅ exampleSource exampleCopy
           canonicalKeys_exampleSource exampleSource_copied).
Defined.

(** With canonical keys, no name of the static hop-by-hop set and no name
    listed as a token of the source's [Connection] header gets a value from
    the source: the destination's entry for it is what it was, and a
    destination that starts empty has no such name. *)
Theorem hop_by_hop_names_not_copied (dst src dst' : gmap string (list string))
    (name : string) :
  canonicalKeys src → copyHeaders dst src dst' →
  name ∈ hopByHopHeaders ∨ name ∈ dynDropHdrs src →
  dst' !! name = dst !! name
  ∧ (dst = ∅ → name ∉ dom dst').
Proof.
  intros Hcanon Hcopy Hdrop.
  pose proof (dropped_name_untouched dst src dst' name Hcanon Hcopy Hdrop) as Heq.
  split; [done |]. intros ->. rewrite not_elem_of_dom, Heq. apply lookup_empty.
Qed.

Lemma hop_by_hop_names_not_copied_witness :
  exampleCopy !! "X-Foo" = (∅ : gmap string (list string)) !! "X-Foo".
Proof.
  apply (hop_by_hop_names_not_copied ∅ exampleSource exampleCopy "X-Foo"
           canonicalKeys_exampleSource exampleSource_copied).
  right. apply (bool_decide_unpack _). by vm_compute.
Defined.

(** The precondition matters: a key that is not canonical is compared as it
    is with the static set, and then stored under its canonical name. *)
Example lower_case_connection_is_copied :
  copyHeaders ∅ {[ "connection" := ["close"] ]} {[ "Connection" := ["close"] ]}.
Proof.
  exists (map_to_list ({[ "connection" := ["close"] ]} : gmap string (list string))).
  split; [reflexivity | by vm_compute].
Qed.

(** Sanitizing is idempotent: the sanitized copy of a header with canonical
    keys, sanitized again into an empty header, is itself. *)
Theorem copyHeaders_idempotent (src once twice : gmap string (list string)) :
  canonicalKeys src →
  copyHeaders ∅ src once → copyHeaders ∅ once twice →
  twice = once ∧ canonicalKeys once ∧ dynDropHdrs once = ∅.
Proof.
  intros Hcanon Hfirst Hsecond.
  assert (∀ name, once !! name = appendValues None (fieldValues src name))
    as Honce'.
  { intros name.
    by rewrite (copyHeaders_canonical_lookup ∅ src once name Hcanon Hfirst),
         lookup_empty. }
  assert (∀ name, is_Some (once !! name) →
            dropped (dynDropHdrs src) name = false ∧ is_Some (src !! name))
    as Hkeys.
  { intros name. rewrite Honce'. unfold fieldValues, Header.values.
    destruct (dropped (dynDropHdrs src) name); [by intros [? [=]] |].
    destruct (src !! name); [by eauto | by intros [? [=]]]. }
  assert (canonicalKeys once) as Hcanon'.
  { intros k [_ Hk]%Hkeys. by apply Hcanon. }
  assert (dynDropHdrs once = ∅) as Hdyn.
  { unfold dynDropHdrs. destruct (once !! connectionHeader) eqn:Hc; [| done].
    destruct (Hkeys connectionHeader) as [Hd _]; [by rewrite Hc |].
    by vm_compute in Hd. }
  split; [| done].
  apply map_eq. intros name.
  rewrite (copyHeaders_canonical_lookup ∅ once twice name Hcanon' Hsecond),
    lookup_empty.
  unfold fieldValues at 1. rewrite Hdyn.
  destruct (once !! name) as [vals|] eqn:Hname.
  - destruct (Hkeys name) as [[Hstatic _]%dropped_false _]; [by rewrite Hname |].
    assert (dropped ∅ name = false) as ->.
    { apply dropped_false. split; [done | set_solver]. }
    unfold Header.values. rewrite Hname. simpl.
    rewrite Honce' in Hname. unfold appendValues in Hname.
    destruct (fieldValues src name) eqn:Hf; [done |].
    by injection Hname as <-.
  - unfold Header.values. rewrite Hname. by destruct (dropped ∅ name).
Qed.

Lemma copyHeaders_idempotent_witness :
  exampleCopy = exampleCopy ∧ canonicalKeys exampleCopy
  ∧ dynDropHdrs exampleCopy = ∅.
Proof.
  apply (copyHeaders_idempotent exampleSource exampleCopy exampleCopy
           canonicalKeys_exampleSource exampleSource_copied).
  exists (map_to_list exampleCopy). split; [reflexivity | by vm_compute].
Defined.

(** ** Across the proxy, in both directions *)




(** ** More on the relay *)

(** Over every interleaving the wait group's counter stays between zero and
    two, so no [wg.Done()] ever makes it negative, and once [wg.Add(2)] is
    made it is the number of transfers that have not made their [wg.Done()]
    yet. *)
Theorem wait_group_counts_transfers (s : relayState) :
  relayReachable s →
  (0 ≤ wg s ≤ 2)%Z
  ∧ (pc s ≠ AtAdd →
     wg s = (pending (upstreamTransfer s) + pending (clientTransfer s))%Z).
Proof.
  intros Hinv%relayInv_reachable. unfold relayInv in Hinv.
  destruct (pc s); destruct Hinv as (Hcount & Hrest).
  - split; [lia | done].
  - destruct Hrest as [-> ->]. simpl. split; [lia | done].
  - destruct Hrest as [_ ->]. destruct (upstreamTransfer s); simpl in *; lia.
  - destruct (upstreamTransfer s), (clientTransfer s); simpl in *; lia.
  - destruct Hrest as (-> & -> & _). simpl. split; [lia | done].
Qed.

Lemma wait_group_counts_transfers_witness :
  (0 ≤ wg relayDone ≤ 2)%Z
  ∧ (pc relayDone ≠ AtAdd →
     wg relayDone
     = (pending (upstreamTransfer relayDone)
        + pending (clientTransfer relayDone))%Z).
Proof. apply (wait_group_counts_transfers relayDone relayDone_reachable). Defined.

Lemma upstream_can_finish (p : handlerPc) (n : Z) (g1 g2 : goroutine) :
  started g1 →
  rtc relayStep
    {| pc := p; wg := n; upstreamTransfer := g1; clientTransfer := g2 |}
    {| pc := p; wg := n - pending g1;
       upstreamTransfer := Exited; clientTransfer := g2 |}.
Proof.
  intros Hs. destruct g1 as [| copied | copied err |]; [done | | |]; cbn.
  - eapply rtc_l; [apply step_upstream, (copy_returns _ None) |]. cbn.
    eapply rtc_l; [apply step_upstream, wg_done |]. apply rtc_refl.
  - eapply rtc_l; [apply step_upstream, wg_done |]. apply rtc_refl.
  - rewrite Z.sub_0_r. apply rtc_refl.
Qed.

Lemma client_can_finish (p : handlerPc) (n : Z) (g1 g2 : goroutine) :
  started g2 →
  rtc relayStep
    {| pc := p; wg := n; upstreamTransfer := g1; clientTransfer := g2 |}
    {| pc := p; wg := n - pending g2;
       upstreamTransfer := g1; clientTransfer := Exited |}.
Proof.
  intros Hs. destruct g2 as [| copied | copied err |]; [done | | |]; cbn.
  - eapply rtc_l; [apply step_client, (copy_returns _ None) |]. cbn.
    eapply rtc_l; [apply step_client, wg_done |]. apply rtc_refl.
  - eapply rtc_l; [apply step_client, wg_done |]. apply rtc_refl.
  - rewrite Z.sub_0_r. apply rtc_refl.
Qed.

Lemma transfers_can_finish (p : handlerPc) (n : Z) (g1 g2 : goroutine) :
  started g1 → started g2 →
  rtc relayStep
    {| pc := p; wg := n; upstreamTransfer := g1; clientTransfer := g2 |}
    {| pc := p; wg := n - pending g1 - pending g2;
       upstreamTransfer := Exited; clientTransfer := Exited |}.
Proof.
  intros H1 H2. eapply rtc_trans; [by apply upstream_can_finish |].
  by apply client_can_finish.
Qed.

(** From every state the relay can be in, the handler can still return: no
    interleaving leads to a state from which the wait cannot end once the
    two copies return. *)
Theorem relay_can_always_return (s : relayState) :
  relayReachable s → rtc relayStep s relayDone.
Proof.
  intros Hinv%relayInv_reachable. unfold relayInv in Hinv.
  assert (∀ n g1 g2, started g1 → started g2 →
            n = (pending g1 + pending g2)%Z →
            rtc relayStep
              {| pc := AtWait; wg := n; upstreamTransfer := g1;
                 clientTransfer := g2 |} relayDone) as Hwait.
  { intros n g1 g2 H1 H2 ->.
    eapply rtc_trans; [by apply transfers_can_finish |].
    replace (pending g1 + pending g2 - pending g1 - pending g2)%Z with 0%Z
      by lia.
    eapply rtc_l; [by apply step_wait | apply rtc_refl]. }
  assert (∀ n g1, started g1 → n = (pending g1 + 1)%Z →
            rtc relayStep
              {| pc := AtGoClient; wg := n; upstreamTransfer := g1;
                 clientTransfer := NotStarted |} relayDone) as Hgo.
  { intros n g1 H1 ->.
    eapply rtc_l; [by apply step_go_client |]. cbn.
    by apply Hwait. }
  destruct s as [p n g1 g2]. cbn in Hinv. destruct p.
  - destruct Hinv as (-> & -> & ->).
    eapply rtc_l; [by apply step_add |]. cbn.
    eapply rtc_l; [by apply step_go_upstream |]. cbn.
    by apply Hgo.
  - destruct Hinv as (-> & -> & ->).
    eapply rtc_l; [by apply step_go_upstream |]. cbn.
    by apply Hgo.
  - destruct Hinv as (-> & H1 & ->). by apply Hgo.
  - destruct Hinv as (-> & H1 & H2). by apply Hwait.
  - destruct Hinv as (-> & -> & -> & ->). apply rtc_refl.
Qed.

Lemma relay_can_always_return_witness : rtc relayStep relayInit relayDone.
Proof.
  apply (relay_can_always_return relayInit). apply rtc_refl.
Defined.
